(** * Quantization and evaluation harness of the OpenVINO notebooks

    A shallow embedding of the Python code of the CT-scan quantization
    notebook (the [BinaryF1] metric, the [KitsDataLoader] data source, the
    asynchronous inference loop) and of the BERT quantization notebook (the
    [validate] function and the timing cell), with the properties of the
    specification stated and settled against it.

    Conventions of the embedding.
    - Python's dynamically typed numbers are a tagged type [scalar]: the
      tag (Python [int], Python [float], [numpy.int64], numpy floating
      scalar) decides what [/] does on a zero divisor.
    - Floating-point values are embedded in exact arithmetic: a finite
      float is a rational [Qc]; infinities and NaN are kept, because numpy
      produces them instead of raising. Rounding of binary32/binary64 and
      the sign of zero are not modelled.
    - [numpy.int64] arithmetic wraps around modulo 2^64.
    - Exceptions are the [Raise] branch of [result]. *)

From Stdlib Require Import ZArith QArith Qcanon Reals Lra Lia Ascii.
From stdpp Require Import base numbers list strings gmap sorting pretty.

Local Open Scope Z_scope.

(** ** Exceptions and fallible computations *)

Inductive exn : Type :=
| ZeroDivisionError
| ValueError
| IndexError
| KeyError
| ConfigurationError.

Inductive result (A : Type) : Type :=
| Ok (a : A)
| Raise (e : exn).

Arguments Ok {A} a.
Arguments Raise {A} e.

Definition rbind {A B : Type} (r : result A) (k : A -> result B) : result B :=
  match r with
  | Ok a => k a
  | Raise e => Raise e
  end.

Definition rmap {A B : Type} (f : A -> B) (r : result A) : result B :=
  rbind r (fun a => Ok (f a)).

Global Instance result_ret : MRet result := fun _ a => Ok a.
Global Instance result_bind : MBind result := fun _ _ k r => rbind r k.
Global Instance result_fmap : FMap result := fun _ _ f r => rmap f r.

(** Code that mutates a state [S] and may raise: the state reached is
    kept when an exception leaves the code. *)
Definition prog (S A : Type) : Type := S -> S * result A.

Definition pret {S A : Type} (a : A) : prog S A := fun s => (s, Ok a).

Definition pbind {S A B : Type} (m : prog S A) (k : A -> prog S B) : prog S B :=
  fun s =>
    match m s with
    | (s', Ok a) => k a s'
    | (s', Raise e) => (s', Raise e)
    end.

Definition lift {S A : Type} (r : result A) : prog S A := fun s => (s, r).

Global Instance prog_ret {S} : MRet (prog S) := fun _ a => pret a.
Global Instance prog_bind {S} : MBind (prog S) := fun _ _ k m => pbind m k.

(** [for x in l: body(x)] *)
Fixpoint for_each {S A : Type} (l : list A) (body : A -> prog S unit) : prog S unit :=
  match l with
  | [] => pret tt
  | x :: l' => pbind (body x) (fun _ => for_each l' body)
  end.

(** ** Numbers of Python and numpy *)

Module Num.

(** A floating-point value in exact arithmetic. *)
Inductive fval : Type :=
| Fin (q : Qc)
| Inf (neg : bool)
| NaN.

Definition is_neg (q : Qc) : bool := bool_decide (q < 0)%Qc.

Definition fmul (a b : fval) : fval :=
  match a, b with
  | NaN, _ | _, NaN => NaN
  | Fin x, Fin y => Fin (x * y)%Qc
  | Inf s, Fin y | Fin y, Inf s =>
      if decide (y = 0%Qc) then NaN else Inf (xorb s (is_neg y))
  | Inf s, Inf t => Inf (xorb s t)
  end.

Definition fadd (a b : fval) : fval :=
  match a, b with
  | NaN, _ | _, NaN => NaN
  | Fin x, Fin y => Fin (x + y)%Qc
  | Inf s, Fin _ | Fin _, Inf s => Inf s
  | Inf s, Inf t => if Bool.eqb s t then Inf s else NaN
  end.

Definition fopp (a : fval) : fval :=
  match a with
  | Fin x => Fin (- x)%Qc
  | Inf s => Inf (negb s)
  | NaN => NaN
  end.

(** IEEE 754 division: a zero divisor gives NaN for [0/0] and an infinity
    otherwise; nothing is raised at this level. *)
Definition fdiv (a b : fval) : fval :=
  match a, b with
  | NaN, _ | _, NaN => NaN
  | Fin x, Fin y =>
      if decide (y = 0%Qc)
      then (if decide (x = 0%Qc) then NaN else Inf (is_neg x))
      else Fin (x / y)%Qc
  | Inf s, Fin y => Inf (xorb s (is_neg y))
  | Fin _, Inf _ => Fin 0%Qc
  | Inf _, Inf _ => NaN
  end.

(** [fle a b] is the comparison [a <= b] of floats: false on NaN. *)
Definition fle (a b : fval) : Prop :=
  match a, b with
  | NaN, _ | _, NaN => False
  | Fin x, Fin y => (x <= y)%Qc
  | Inf true, _ => True
  | _, Inf false => True
  | _, _ => False
  end.

Definition int64_modulus : Z := 2 ^ 64.
Definition int64_max : Z := 2 ^ 63 - 1.
Definition int64_min : Z := - 2 ^ 63.

(** Two's complement wrap-around of [numpy.int64]. *)
Definition wrap64 (z : Z) : Z := (z + 2 ^ 63) mod int64_modulus - 2 ^ 63.

(** [ndarray.astype(np.byte)] on an integer element: the low 8 bits, signed. *)
Definition as_byte (z : Z) : Z := (z + 128) mod 256 - 128.

Inductive scalar : Type :=
| PyInt (n : Z)
| PyFloat (x : fval)
| NpInt64 (n : Z)
| NpFloat (x : fval).

Definition is_numpy (a : scalar) : bool :=
  match a with
  | NpInt64 _ | NpFloat _ => true
  | PyInt _ | PyFloat _ => false
  end.

Definition to_fval (a : scalar) : fval :=
  match a with
  | PyInt n | NpInt64 n => Fin (Qc_of_Z n)
  | PyFloat x | NpFloat x => x
  end.

Definition is_zero (a : scalar) : bool :=
  match to_fval a with
  | Fin q => bool_decide (q = 0%Qc)
  | _ => false
  end.

(** A binary arithmetic operator ([+] or [*]): integers stay integers, a
    numpy operand makes the result a numpy scalar. *)
Definition arith (zop : Z -> Z -> Z) (fop : fval -> fval -> fval)
    (a b : scalar) : scalar :=
  match a, b with
  | PyInt x, PyInt y => PyInt (zop x y)
  | PyInt x, NpInt64 y | NpInt64 x, PyInt y | NpInt64 x, NpInt64 y =>
      NpInt64 (wrap64 (zop x y))
  | _, _ =>
      if is_numpy a || is_numpy b
      then NpFloat (fop (to_fval a) (to_fval b))
      else PyFloat (fop (to_fval a) (to_fval b))
  end.

Definition add : scalar -> scalar -> scalar := arith Z.add fadd.
Definition sub : scalar -> scalar -> scalar :=
  arith Z.sub (fun x y => fadd x (fopp y)).
Definition mul : scalar -> scalar -> scalar := arith Z.mul fmul.

(** The operator [/]. Between Python numbers a zero divisor raises
    [ZeroDivisionError]; as soon as one operand is a numpy scalar the
    division is numpy's [true_divide], which returns NaN or an infinity
    (and only warns). *)
Definition truediv (a b : scalar) : result scalar :=
  if is_numpy a || is_numpy b
  then Ok (NpFloat (fdiv (to_fval a) (to_fval b)))
  else if is_zero b then Raise ZeroDivisionError
  else Ok (PyFloat (fdiv (to_fval a) (to_fval b))).

(** [scalar_le a b]: the value of [a] is at most the value of [b]. *)
Definition scalar_le (a b : scalar) : Prop := fle (to_fval a) (to_fval b).

End Num.

Export Num.

(** ** Binarisation of a model output

    The notebook turns a raw network output [x] into a mask value with
    [sigmoid(x).round().astype(np.byte)], where
    [sigmoid(x) = np.exp(-np.logaddexp(0, -x))]. The exponential has no
    rational values, so the expression is first written over the real
    numbers as the source has it, and then shown to be the sign test
    [binarize] that the executable model uses. *)

Module Sigmoid.

Section Real.
Local Open Scope R_scope.

(** [np.logaddexp(a, b)] is [log(exp(a) + exp(b))]. *)
Definition logaddexp (a b : R) : R := ln (exp a + exp b).

Definition sigmoid (x : R) : R := exp (- logaddexp 0 (- x)).

(** [ndarray.round()]: to the nearest integer, a tie to the even one. *)
Definition round_half_even (y : R) : Z :=
  let f := Int_part y in
  if Rlt_dec (frac_part y) (1 / 2) then f
  else if Rlt_dec (1 / 2) (frac_part y) then (f + 1)%Z
  else if Z.even f then f else (f + 1)%Z.

(** [sigmoid(x).round().astype(np.byte)] on one element. *)
Definition binarize_real (x : R) : Z := as_byte (round_half_even (sigmoid x)).

End Real.

(** The executable form, on an output value in exact arithmetic. *)
Definition binarize (x : Qc) : Z := if decide (0 < x)%Qc then 1 else 0.

End Sigmoid.

Export Sigmoid.

(** ** The metric accumulator [BinaryF1] *)

Module BinaryF1.

(** The fields of a [BinaryF1] object. The three counters start as Python
    [int] zeros and become numpy scalars with the first [update]. *)
Record t : Type := mk {
  name : string;
  y_true : scalar;
  y_pred : scalar;
  correct_true : scalar
}.

(** [__init__] *)
Definition init : t :=
  {| name := "F1"; y_true := PyInt 0; y_pred := PyInt 0; correct_true := PyInt 0 |}.

(** [value]: a constant placeholder per image. *)
Definition value (self : t) : gmap string (list scalar) :=
  {[ name self := [PyInt 0; PyInt 0] ]}.

(** [avg_value]:
    recall = correct_true / y_pred; precision = correct_true / y_true;
    f1 = (2 * precision * recall) / (precision + recall). *)
Definition avg_value (self : t) : result (gmap string scalar) :=
  recall ← truediv (correct_true self) (y_pred self);
  precision ← truediv (correct_true self) (y_true self);
  f1 ← truediv (mul (mul (PyInt 2) precision) recall) (add precision recall);
  Ok {[ name self := f1 ]}.

Definition Zsum (l : list Z) : Z := foldr Z.add 0 l.

(** [np.sum] of an [int8] array: accumulated in [int64]. *)
Definition np_sum (l : list Z) : scalar := NpInt64 (wrap64 (Zsum l)).

(** [.astype(np.float32)] of an integer scalar (exact below 2^24, the
    range of a pixel count of one image). *)
Definition astype_float32 (a : scalar) : scalar := NpFloat (to_fval a).

(** [(a == b).astype(np.byte)] on one element. *)
Definition eq_byte (a b : Z) : Z := as_byte (if a =? b then 1 else 0).

(** The element-wise product
    [(label == prediction).astype(np.byte) * (label == 1).astype(np.byte)]. *)
Definition hits (label prediction : list Z) : list Z :=
  zip_with (fun l p => as_byte (eq_byte l p * eq_byte l 1)) label prediction.

(** [update(output, target)]; [output] and [target] stand for the arrays
    [output[0]] (raw network outputs) and [target[0]] (integer pixel values
    of the mask) of one shape, read element by element. *)
Definition update (self : t) (output : list Qc) (target : list Z) : t :=
  let label := as_byte <$> target in
  let prediction := binarize <$> output in
  let correct := astype_float32 (np_sum (hits label prediction)) in
  {| name := name self;
     y_true := add (y_true self) (np_sum label);
     y_pred := add (y_pred self) (np_sum prediction);
     correct_true := add (correct_true self) correct |}.

(** [reset] *)
Definition reset (self : t) : t :=
  {| name := name self; y_true := PyInt 0; y_pred := PyInt 0; correct_true := PyInt 0 |}.

(** [get_attributes] *)
Definition get_attributes (self : t) : gmap string (gmap string string) :=
  {[ name self := {[ "direction" := "higher-better"; "type" := "F1" ]} ]}.

(** One evaluation pass: the engine calls [update] once per sample, in
    the order of the data source. *)
Definition run (self : t) (calls : list (list Qc * list Z)) : t :=
  foldl (fun m c => update m c.1 c.2) self calls.

(** [avg_value] with the two ratios interchanged: [recall] is taken over
    [y_true] and [precision] over [y_pred]. *)
Definition avg_value_swapped (self : t) : result (gmap string scalar) :=
  recall ← truediv (correct_true self) (y_true self);
  precision ← truediv (correct_true self) (y_pred self);
  f1 ← truediv (mul (mul (PyInt 2) precision) recall) (add precision recall);
  Ok {[ name self := f1 ]}.

(** All three counters are numpy scalars: the state of an object that has
    seen an [update]. *)
Definition updated (s : t) : Prop :=
  is_numpy (y_true s) = true /\ is_numpy (y_pred s) = true /\
  is_numpy (correct_true s) = true.

(** What one call adds: the sum of the labels, the sum of the binarised
    predictions, and the number of positions where a label 1 is predicted. *)
Definition label_sum (c : list Qc * list Z) : Z := Zsum (as_byte <$> c.2).
Definition pred_sum (c : list Qc * list Z) : Z := Zsum (binarize <$> c.1).
Definition hit_sum (c : list Qc * list Z) : Z :=
  Zsum (hits (as_byte <$> c.2) (binarize <$> c.1)).

Definition label_total (calls : list (list Qc * list Z)) : Z :=
  Zsum (label_sum <$> calls).
Definition pred_total (calls : list (list Qc * list Z)) : Z :=
  Zsum (pred_sum <$> calls).
Definition hit_total (calls : list (list Qc * list Z)) : Z :=
  Zsum ((fun c => wrap64 (hit_sum c)) <$> calls).

(** The number of output elements that a list of calls hands over. *)
Definition output_total (calls : list (list Qc * list Z)) : Z :=
  Zsum ((fun c => Z.of_nat (length c.1)) <$> calls).

(** The labels of a call are non-negative once cast to [np.byte]. *)
Definition nonneg_labels (c : list Qc * list Z) : Prop :=
  Forall (fun z => 0 <= as_byte z) c.2.

(** The counters of [s] hold the totals [a], [p] and [h]: either as the
    numpy scalars that [update] leaves, or as the zeros of [reset]. *)
Definition counts (s : t) (a p h : Z) : Prop :=
  (y_true s = NpInt64 (wrap64 a) \/ y_true s = PyInt 0 /\ a = 0) /\
  (y_pred s = NpInt64 (wrap64 p) \/ y_pred s = PyInt 0 /\ p = 0) /\
  (correct_true s = NpFloat (Fin (Qc_of_Z h)) \/ correct_true s = PyInt 0 /\ h = 0).

(** Each counter of [s] is at most the same counter of [s']. *)
Definition counters_le (s s' : t) : Prop :=
  scalar_le (y_true s) (y_true s') /\
  scalar_le (y_pred s) (y_pred s') /\
  scalar_le (correct_true s) (correct_true s').

(** A model that returns the ground-truth mask as its output. *)
Definition mock_model (mask : list Z) : list Qc := Qc_of_Z <$> mask.

(** A pixel of a binary mask. *)
Definition binary (px : Z) : Prop := px = 0 \/ px = 1.

(** The number of foreground pixels of a mask. *)
Definition foreground (mask : list Z) : Z :=
  Z.of_nat (length (filter (fun px => px = 1) mask)).

(** Scoring a model on a list of masks with a new metric object. *)
Definition score (model : list Z -> list Qc) (masks : list (list Z))
    : result (gmap string scalar) :=
  avg_value (run init ((fun mask => (model mask, mask)) <$> masks)).

End BinaryF1.

(** ** The data source [KitsDataLoader] *)

Module Kits.

(** A path, as the list of its components below the directory [BASEDIR]. *)
Definition path : Type := list string.

(** The directory tree below [BASEDIR]: the set of the entries it holds. *)
Definition tree : Type := gset path.

Definition ends_with (suffix s : string) : bool :=
  String.prefix (String.rev suffix) (String.rev s).

(** One entry against the pattern ["case_*/segmentation_frames/*png"]. *)
Definition is_mask (p : path) : bool :=
  match p with
  | [c; d; f] =>
      String.prefix "case_" c && bool_decide (d = "segmentation_frames")
      && ends_with "png" f
  | _ => false
  end.

(** [BASEDIR.glob(pattern)]: the matching entries, in the order in which
    the file system lists them. *)
Definition glob (fs : tree) : list path := filter (fun p => is_mask p) (elements fs).

(** The order of [pathlib] paths: component by component, a string by
    its code points, a proper prefix first. *)
Fixpoint path_compare (p q : path) : comparison :=
  match p, q with
  | [], [] => Eq
  | [], _ :: _ => Lt
  | _ :: _, [] => Gt
  | a :: p', b :: q' =>
      match String.compare a b with
      | Eq => path_compare p' q'
      | c => c
      end
  end.

Definition path_le (p q : path) : Prop := path_compare p q <> Gt.

Global Instance path_le_dec : RelDecision path_le.
Proof. intros p q. unfold path_le. apply _. Defined.

(** [sorted(...)] *)
Definition sorted (l : list path) : list path := merge_sort path_le l.

(** [f"{i:05d}"] *)
Definition fmt_05d (i : nat) : string :=
  let s := pretty i in
  String.string_of_list_ascii (replicate (5 - String.length s) "0"%char) +:+ s.

Definition val_indices : list nat :=
  [7; 10; 14; 15; 30; 60; 71; 74; 75; 81; 92; 93;
   106; 115; 117; 119; 134; 161; 192; 196; 203]%nat.

Definition val_cases : list string :=
  (fun i => "case_" +:+ fmt_05d i) <$> val_indices.

(** [mask.parents[1].name] of a path [case/segmentation_frames/file]. *)
Definition case_name (mask : path) : string :=
  match mask with
  | c :: _ => c
  | [] => ""
  end.

(** [PurePath.stem]: the final component without its last suffix. *)
Definition stem (p : path) : string :=
  let nm := default "" (last p) in
  match String.index 0 "." (String.rev nm) with
  | Some k =>
      let i := (String.length nm - 1 - k)%nat in
      if bool_decide (0 < i)%nat && bool_decide (i < String.length nm - 1)%nat
      then String.substring 0 i nm else nm
  | None => nm
  end.

Record t : Type := mk {
  basedir : string;
  dataset : list path
}.

(** [__init__(basedir)]. The masks are looked up below the global
    [BASEDIR], whose tree is [fs]; the argument is only stored. The
    message printed at the end is left out. *)
Definition init (fs : tree) (basedir : string) : result t :=
  let allmasks := sorted (glob fs) in
  if decide (length allmasks = 0%nat) then Raise ValueError
  else
    let masks := filter (fun mask => case_name mask ∈ val_cases) allmasks in
    Ok {| basedir := basedir; dataset := masks |}.

(** [__len__] *)
Definition len (self : t) : nat := length (dataset self).

(** Indexing of a Python list: a negative index counts from the end, an
    index out of range raises [IndexError]. *)
Definition list_index {A : Type} (l : list A) (index : Z) : result A :=
  let n := Z.of_nat (length l) in
  let j := if index <? 0 then index + n else index in
  if (0 <=? j) && (j <? n)
  then match l !! Z.to_nat j with
       | Some x => Ok x
       | None => Raise IndexError
       end
  else Raise IndexError.

(** What [__getitem__] returns, before the two images are decoded: the
    index of the annotation, the path of the mask, and the metadata. *)
Record item : Type := mk_item {
  item_index : Z;
  mask_path : path;
  case : string;
  slice : string
}.

(** [__getitem__(index)]: the access [self.dataset[index]] and the
    metadata. Decoding and resizing the mask and the image is done by
    MONAI and OpenCV and is not part of the model. *)
Definition getitem (self : t) (index : Z) : result item :=
  mask_path ← list_index (dataset self) index;
  Ok {| item_index := index; mask_path := mask_path;
        case := case_name mask_path; slice := stem mask_path |}.

End Kits.

(** ** Statistics collection of the quantization pipeline *)

Module Pipeline.

(** [algorithms[0]["stat_subset_size"]] of the quantization config. *)
Definition stat_subset_size : nat := 1000.

Inductive level : Type := Warning | Error.

Record note : Type := mk_note { severity : level; text : string }.

Section CollectStatistics.

Context {Model Stat : Type}.

(** Running one sample through the model and observing its tensors. *)
Variable observe : Model -> Kits.item -> Stat.

Record calibration : Type := mk_calibration {
  reads : list Z;
  observations : list Stat;
  notes : list note
}.

(** Modelled from the spec: [collect_statistics(model, calibration_dataset,
    subset_size)] is the statistics pass of the external POT pipeline that
    [pipeline.run] starts; its code is not among the sources. The spec has
    it run up to [subset_size] samples through the model, take the whole
    data set with a warning-level note when the data set is smaller, and
    be fatal ([ConfigurationError]) on an empty data set. [reads] records
    the indices asked of the data source, in order. *)
Definition collect_statistics (model : Model) (dl : Kits.t) (subset_size : nat)
    : result calibration :=
  let n := Kits.len dl in
  if decide (n = 0%nat) then Raise ConfigurationError
  else
    let indices := Z.of_nat <$> seq 0 (subset_size `min` n) in
    items ← mapM (Kits.getitem dl) indices;
    Ok {| reads := indices;
          observations := observe model <$> items;
          notes := if decide (n < subset_size)%nat
                   then [ {| severity := Warning;
                             text := "subset_size exceeds the data set" |} ]
                   else [] |}.

End CollectStatistics.

End Pipeline.

(** ** The asynchronous inference queue *)

Module AsyncQueue.

Section Queue.

Context {Input Tag : Type}.

(** Modelled from the spec: the asynchronous inference queue is
    [openvino.runtime.AsyncInferQueue], whose code is not among the
    sources. The spec has requests dispatched without waiting, a completion
    callback invoked once when a request finishes, in an order that need
    not be the order of submission, with the user data of that request.
    [in_flight] holds the requests submitted and not yet finished,
    [callbacks] the user data of the callback invocations so far. *)
Record state : Type := mk {
  in_flight : list (Input * Tag);
  callbacks : list Tag
}.

Definition create : state := {| in_flight := []; callbacks := [] |}.

(** [start_async(inputs, userdata)] *)
Definition start_async (inputs : Input) (userdata : Tag) (q : state) : state :=
  {| in_flight := in_flight q ++ [(inputs, userdata)]; callbacks := callbacks q |}.

(** The [k]-th request in flight finishes: its callback runs on its own
    user data. *)
Definition complete (k : nat) (q : state) : option state :=
  match in_flight q !! k with
  | Some (_, userdata) =>
      Some {| in_flight := delete k (in_flight q);
              callbacks := callbacks q ++ [userdata] |}
  | None => None
  end.

Inductive step : state -> state -> Prop :=
| step_complete k q q' : complete k q = Some q' -> step q q'.

(** The inference loop of the notebook: one [start_async] per frame, then
    [wait_all()]. Requests may finish at any point in between, and
    [wait_all] returns only when none is in flight. *)
Inductive runs : list (Input * Tag) -> state -> state -> Prop :=
| runs_submit inputs userdata frames q q' :
    runs frames (start_async inputs userdata q) q' ->
    runs ((inputs, userdata) :: frames) q q'
| runs_complete frames q q1 q' :
    step q q1 -> runs frames q1 q' -> runs frames q q'
| runs_wait_all q :
    in_flight q = [] -> runs [] q q.

(** [wait_all()] under a schedule: [picks] names, turn by turn, which of
    the requests in flight finishes next. *)
Fixpoint wait_all (picks : list nat) (fuel : nat) (q : state) : state :=
  match fuel with
  | O => q
  | S fuel' =>
      let k := (hd 0 picks `mod` length (in_flight q))%nat in
      match complete k q with
      | Some q' => wait_all (tl picks) fuel' q'
      | None => q
      end
  end.

(** The loop with every completion left to [wait_all]. *)
Definition infer_all (picks : list nat) (frames : list (Input * Tag)) : state :=
  let q := foldl (fun q f => start_async f.1 f.2 q) create frames in
  wait_all picks (length (in_flight q)) q.

End Queue.

Arguments state : clear implicits.

End AsyncQueue.

(** ** The BERT notebook: [validate] *)

Module Bert.

(** A field of a data set item. *)
Inductive value : Type :=
| VInt (n : Z)
| VInts (l : list Z)
| VStr (s : string).

(** An item of the data source: a dictionary of fields. *)
Definition batch : Type := gmap string value.

Definition dict_get {V : Type} (d : gmap string V) (key : string) : result V :=
  match d !! key with
  | Some v => Ok v
  | None => Raise KeyError
  end.

(** [np.expand_dims(np.asarray(v, dtype=np.int64), 0)], row by row. *)
Definition asarray_int64 (v : value) : result (list Z) :=
  match v with
  | VInts l => Ok l
  | VInt n => Ok [n]
  | VStr _ => Raise ValueError
  end.

Fixpoint argmax_from (best : Qc) (besti i : nat) (l : list Qc) : nat :=
  match l with
  | [] => besti
  | x :: l' =>
      if decide (best < x)%Qc then argmax_from x i (S i) l'
      else argmax_from best besti (S i) l'
  end.

(** [row.argmax(axis=-1)]: the first index of the largest entry. *)
Definition argmax (row : list Qc) : result Z :=
  match row with
  | [] => Raise ValueError
  | x :: l => Ok (Z.of_nat (argmax_from x 0 1 l))
  end.

(** The state of one metric object of the [evaluate] library: the
    predictions and references added so far. *)
Record metric : Type := mk_metric {
  predictions : list Z;
  references : list value
}.

(** The metric objects alive in the Python process, by identity. *)
Record world : Type := mk_world { metrics : gmap nat metric }.

(** [evaluate.load('glue', 'mrpc')]: a new, empty metric object. *)
Definition load : prog world nat :=
  fun w =>
    let id := fresh (dom (metrics w)) in
    ({| metrics := <[id := {| predictions := []; references := [] |}]> (metrics w) |},
     Ok id).

(** [metric.add_batch(predictions=ps, references=rs)] *)
Definition add_batch (id : nat) (ps : list Z) (rs : list value) : prog world unit :=
  fun w =>
    match metrics w !! id with
    | Some m =>
        ({| metrics := <[id := {| predictions := predictions m ++ ps;
                                  references := references m ++ rs |}]> (metrics w) |},
         Ok tt)
    | None => (w, Raise KeyError)
    end.

Section Validate.

Context {Model : Type}.

(** A compiled model of the OpenVINO runtime: the names of its inputs and,
    for output 0, the rows it returns on given input arrays. *)
Record compiled : Type := mk_compiled {
  input_names : list string;
  call : list (list Z) -> list (list Qc)
}.

(** [core.compile_model(model, device_name='CPU')] *)
Variable compile_model : Model -> compiled.

(** [metric.compute()] of the [evaluate] library, on what the metric
    object holds. *)
Variable compute : metric -> result (gmap string scalar).

Definition metric_compute (id : nat) : prog world (gmap string scalar) :=
  fun w =>
    match metrics w !! id with
    | Some m => (w, compute m)
    | None => (w, Raise KeyError)
    end.

(** The body of the loop [for batch in dataset]. *)
Definition validate_batch (compiled_model : compiled) (metric : nat) (b : batch)
    : prog world unit :=
  inputs ← lift (mapM (fun key => dict_get b key ≫= asarray_int64)
                      (input_names compiled_model));
  let outputs := call compiled_model inputs in
  row ← lift (Kits.list_index outputs 0);
  predictions ← lift (argmax row);
  label ← lift (dict_get b "labels");
  add_batch metric [predictions] [label].

(** What one item contributes to the metric: the predicted class and the
    label. *)
Definition batch_result (compiled_model : compiled) (b : batch) : result (Z * value) :=
  inputs ← mapM (fun key => dict_get b key ≫= asarray_int64)
                (input_names compiled_model);
  row ← Kits.list_index (call compiled_model inputs) 0;
  predictions ← argmax row;
  label ← dict_get b "labels";
  Ok (predictions, label).

(** The loop [for batch in dataset] as seen from the metric object alone:
    the state it reaches, and whether the loop was left by an exception. *)
Fixpoint accumulate (compiled_model : compiled) (m : metric) (dataset : list batch)
    : metric * result unit :=
  match dataset with
  | [] => (m, Ok tt)
  | b :: dataset' =>
      match batch_result compiled_model b with
      | Ok (p, label) =>
          accumulate compiled_model
            {| predictions := predictions m ++ [p];
               references := references m ++ [label] |} dataset'
      | Raise e => (m, Raise e)
      end
  end.

(** The value of [validate] computed without the process state. *)
Definition validate_value (model : Model) (dataset : list batch) : result scalar :=
  match accumulate (compile_model model)
          {| predictions := []; references := [] |} dataset with
  | (m, Ok _) => compute m ≫= fun metrics => dict_get metrics "f1"
  | (_, Raise e) => Raise e
  end.

(** [validate(model, dataset)] *)
Definition validate (model : Model) (dataset : list batch) : prog world scalar :=
  let compiled_model := compile_model model in
  metric ← load;
  _ ← for_each dataset (validate_batch compiled_model metric);
  metrics ← metric_compute metric;
  f1_score ← lift (dict_get metrics "f1");
  mret f1_score.

End Validate.

End Bert.

(** ** The BERT notebook: the timing cell *)

Module Timing.

Inductive callee : Type := TorchModel | CompiledFP32 | CompiledINT8.

Section Cells.

(** The prepared model input. *)
Context {Input : Type}.

Inductive event : Type :=
| ReadModel
| Reshape
| CompileModel (c : callee)
| Call (c : callee) (x : Input)
| PerfCounter (t : scalar)
| Print (c : callee) (seconds_per_sentence sps : scalar).

(** The process as the timing code sees it: the clock, in seconds, and
    what has happened so far, oldest first. *)
Record world : Type := mk_world { now : Qc; trace : list event }.

(** How long an action takes when started in a given state. *)
Variable elapse : world -> event -> Qc.

(** An action other than reading the clock: it is recorded and the clock
    moves on. *)
Definition act (e : event) : prog world unit :=
  fun w => ({| now := (now w + elapse w e)%Qc; trace := trace w ++ [e] |}, Ok tt).

(** [time.perf_counter()] *)
Definition perf_counter : prog world scalar :=
  fun w =>
    let t := PyFloat (Fin (now w)) in
    ({| now := now w; trace := trace w ++ [PerfCounter t] |}, Ok t).

(** [print(f"...")]: recorded with the two values handed to the format
    string, before they are rounded to 3 and 2 decimals. *)
Definition print (c : callee) (a b : scalar) : prog world unit :=
  fun w => ({| now := now w; trace := trace w ++ [Print c a b] |}, Ok tt).

(** The cell that builds [compiled_model_fp32]. *)
Definition compile_fp32_cell : prog world unit :=
  _ ← act ReadModel;
  _ ← act Reshape;
  act (CompileModel CompiledFP32).

(** One timed loop of the cell:
    [start = perf_counter(); for _ in range(num_samples): f(x);
     end = perf_counter(); t = end - start;
     print(t / num_samples, num_samples / t)]. *)
Definition timed_loop (c : callee) (x : Input) (num_samples : nat) : prog world unit :=
  start ← perf_counter;
  _ ← for_each (seq 0 num_samples) (fun _ => act (Call c x));
  end_ ← perf_counter;
  let time := sub end_ start in
  per_sentence ← lift (truediv time (PyInt (Z.of_nat num_samples)));
  sps ← lift (truediv (PyInt (Z.of_nat num_samples)) time);
  print c per_sentence sps.

(** What a timed loop of [n] calls leaves in the trace when its clock
    readings are [t0] and [t1]: the first reading, the calls, the second
    reading, and the line printed. *)
Definition loop_trace (c : callee) (x : Input) (n : nat) (t0 t1 : Qc) : list event :=
  [PerfCounter (PyFloat (Fin t0))]
  ++ replicate n (Call c x)
  ++ [PerfCounter (PyFloat (Fin t1));
      Print c (PyFloat (Fin ((t1 - t0) / Qc_of_Z (Z.of_nat n))%Qc))
              (PyFloat (Fin (Qc_of_Z (Z.of_nat n) / (t1 - t0))%Qc))].

(** [torch.vstack(list(inputs.values()))] *)
Variable vstack : Input -> Input.

(** The timing cell, on the prepared [inputs]. *)
Definition timing_cell (num_samples : nat) (inputs : Input) : prog world unit :=
  _ ← timed_loop TorchModel (vstack inputs) num_samples;
  _ ← timed_loop CompiledFP32 inputs num_samples;
  timed_loop CompiledINT8 inputs num_samples.

(** [num_samples = 50] *)
Definition num_samples : nat := 50.

(** The two cells in the order of the notebook. *)
Definition notebook (n : nat) (inputs : Input) : prog world unit :=
  _ ← compile_fp32_cell;
  timing_cell n inputs.

End Cells.

Arguments event : clear implicits.
Arguments world : clear implicits.

End Timing.

(** ** Calls of [BinaryF1.update] on which the embedding is exact *)

Module Masks.

(** A call whose output and mask have one shape and whose mask is binary.
    On arrays of different shapes numpy broadcasts or raises; those calls
    are outside this development. *)
Definition well_shaped (c : list Qc * list Z) : Prop :=
  length c.1 = length c.2 /\ Forall BinaryF1.binary c.2.

(** An output on which the floating-point [sigmoid(x).round()] is the
    sign test [binarize]: it is 0 or at least 2^-10 away from 0. Closer to
    0 the floating-point sigmoid is 1/2 within rounding and its [round()]
    is not the sign of the output. *)
Definition decisive (x : Qc) : Prop :=
  x = 0%Qc \/ (Q2Qc (1 # 1024) <= x)%Qc \/ (x <= Q2Qc (-1 # 1024))%Qc.

Definition exact_call (c : list Qc * list Z) : Prop :=
  well_shaped c /\ Forall decisive c.1.

(** [np.float32] holds every integer below 2^24; the count of correct
    pixels goes through [astype(np.float32)]. *)
Definition float32_exact : Z := 2 ^ 24.

(** A sequence of calls within the exact range: every call is exact and
    all the calls together hand over fewer than 2^24 output elements, so
    that no count reaches 2^24. *)
Definition exact (calls : list (list Qc * list Z)) : Prop :=
  Forall exact_call calls /\ BinaryF1.output_total calls < float32_exact.

(** The binarised prediction of the call is its mask, pixel by pixel. *)
Definition agrees (c : list Qc * list Z) : Prop := binarize <$> c.1 = c.2.

End Masks.

(** ** Iterating over the data source *)

Module KitsIter.

(** [for item in data_loader]: the class defines [__getitem__] and no
    [__iter__], so the loop asks for the items 0, 1, 2, ... and ends at the
    first [IndexError]; any other exception leaves the loop. [fuel] bounds
    the number of items asked for. *)
Fixpoint iter_from (fuel : nat) (dl : Kits.t) (index : Z)
    : option (result (list Kits.item)) :=
  match fuel with
  | O => None
  | S fuel' =>
      match Kits.getitem dl index with
      | Ok it =>
          match iter_from fuel' dl (index + 1) with
          | Some (Ok items) => Some (Ok (it :: items))
          | other => other
          end
      | Raise IndexError => Some (Ok [])
      | Raise e => Some (Raise e)
      end
  end.

Definition iter (fuel : nat) (dl : Kits.t) : option (result (list Kits.item)) :=
  iter_from fuel dl 0.

End KitsIter.

(** ** The live-inference notebook: frame buffer and frame rate *)

Module LiveInference.

Section FrameBuffer.

Context {Path Image : Type}.

(** [reader(str(image_path))] *)
Variable reader : Path -> Image.

(** The loop
    [while next_frame_id < len(image_paths) - 1:
       image = reader(str(image_paths[next_frame_id]));
       framebuf.append(image); next_frame_id += 1],
    run for at most [fuel] tests of its condition. *)
Fixpoint fill_framebuf (fuel : nat) (image_paths : list Path)
    (framebuf : list Image) (next_frame_id : Z) : option (result (list Image)) :=
  match fuel with
  | O => None
  | S fuel' =>
      if next_frame_id <? Z.of_nat (length image_paths) - 1
      then match Kits.list_index image_paths next_frame_id with
           | Ok image_path =>
               fill_framebuf fuel' image_paths (framebuf ++ [reader image_path])
                             (next_frame_id + 1)
           | Raise e => Some (Raise e)
           end
      else Some (Ok framebuf)
  end.

(** The cell: [framebuf = []; next_frame_id = 0], then the loop. *)
Definition load_frames (fuel : nat) (image_paths : list Path)
    : option (result (list Image)) :=
  fill_framebuf fuel image_paths [] 0.

End FrameBuffer.

(** The figures printed after [wait_all()]:
    [total_time = stop_time - start_time; fps = len(framebuf) / total_time;
     time_per_frame = 1 / fps].
    The quotients are taken in exact arithmetic, as everywhere in this
    development; what is proved of [report] is when it raises, which does
    not depend on rounding. *)
Definition report (frames : nat) (start_time stop_time : scalar)
    : result (scalar * scalar * scalar) :=
  let total_time := sub stop_time start_time in
  fps ← truediv (PyInt (Z.of_nat frames)) total_time;
  time_per_frame ← truediv (PyInt 1) fps;
  Ok (total_time, fps, time_per_frame).

End LiveInference.

(** ** The background-removal notebook: composing the new image *)

Module Background.

(** A pixel is the list of its channel values, a picture the list of its
    pixels; all values are [uint8]. A mask has one value per pixel. *)
Definition pixel : Type := list Z.
Definition picture : Type := list pixel.

Definition uint8 (z : Z) : Prop := 0 <= z < 256.

(** Arithmetic of [uint8] arrays wraps around modulo 256. *)
Definition wrap8 (z : Z) : Z := z `mod` 256.

(** [a[mask == v] = c]: every channel of the selected pixels becomes [c].
    The mask has the height and width of [a]. *)
Definition assign_where (v c : Z) (mask : list Z) (a : picture) : picture :=
  zip_with (fun m px => if m =? v then (fun _ => c) <$> px else px) mask a.

(** [a + b] on [uint8] arrays of one shape. *)
Definition add_uint8 (a b : picture) : picture :=
  zip_with (zip_with (fun x y => wrap8 (x + y))) a b.

(** [bg_removed_result = image.copy(); bg_removed_result[resized_result == 0] = 255] *)
Definition bg_removed_result (image : picture) (resized_result : list Z) : picture :=
  assign_where 0 255 resized_result image.

(** [background_image[resized_result == 1] = 0;
     new_image = background_image + bg_removed_result] *)
Definition new_image (image background_image : picture) (resized_result : list Z)
    : picture :=
  add_uint8 (assign_where 1 0 resized_result background_image)
            (bg_removed_result image resized_result).

End Background.

(** ** Image helpers of the CT-scan notebook *)

Module Cv2.

Inductive rotate_code : Type :=
| ROTATE_90_CLOCKWISE
| ROTATE_180
| ROTATE_90_COUNTERCLOCKWISE.

Section Images.

Context {A : Type}.

(** An array of shape (H, W): its rows. [width] is [src.shape[1]]. *)
Definition width (src : list (list A)) : nat :=
  match src with
  | [] => 0
  | row :: _ => length row
  end.

Definition column (src : list (list A)) (i : nat) : list A :=
  omap (fun row => row !! i) src.

(** [cv2.transpose(src)]: [dst[i][j] = src[j][i]]. *)
Definition transpose (src : list (list A)) : list (list A) :=
  column src <$> seq 0 (width src).

(** [cv2.flip(src, flipCode)]: 0 flips around the x-axis, a positive code
    around the y-axis, a negative code around both. *)
Definition flip (src : list (list A)) (flipCode : Z) : list (list A) :=
  if flipCode =? 0 then reverse src
  else if 0 <? flipCode then reverse <$> src
  else reverse (reverse <$> src).

(** [cv2.rotate(src, rotateCode)], computed as OpenCV does from
    [transpose] and [flip]. *)
Definition rotate (src : list (list A)) (rotateCode : rotate_code) : list (list A) :=
  match rotateCode with
  | ROTATE_90_CLOCKWISE => flip (transpose src) 1
  | ROTATE_180 => flip src (-1)
  | ROTATE_90_COUNTERCLOCKWISE => flip (transpose src) 0
  end.

(** Every row of the array has [src.shape[1]] entries. *)
Definition rectangular (src : list (list A)) : Prop :=
  Forall (fun row => length row = width src) src.

End Images.

End Cv2.

(** [rotate_and_flip(image)] *)
Definition rotate_and_flip {A : Type} (image : list (list A)) : list (list A) :=
  Cv2.flip (Cv2.rotate image Cv2.ROTATE_90_CLOCKWISE) 1.

(** ** The calibration data set of the BERT notebook *)

Module Calibration.

Section Transform.

(** The arrays of numpy. *)
Context {Array : Type}.

(** [np.asarray(v, dtype=np.int64)]: numpy's conversion, which returns an
    array or raises (on text that is no number, on an integer outside
    [int64], ...). *)
Variable asarray_int64 : Bert.value -> result Array.

(** [transform_fn(data_item)], for the names in [INPUT_NAMES]: the dict
    comprehension looks the names up from left to right. *)
Definition transform_fn (INPUT_NAMES : list string) (data_item : Bert.batch)
    : result (gmap string Array) :=
  foldl (fun acc name =>
           inputs ← acc;
           v ← Bert.dict_get data_item name ≫= asarray_int64;
           Ok (<[name := v]> inputs))
        (Ok ∅) INPUT_NAMES.

End Transform.

End Calibration.

(** * Properties *)

(** ** The definitions on small inputs *)

Example as_byte_255 : as_byte 255 = -1.
Proof. reflexivity. Qed.

Example wrap64_overflow : wrap64 (int64_max + 1) = int64_min.
Proof. reflexivity. Qed.

Example truediv_python_zero : truediv (PyInt 0) (PyInt 0) = Raise ZeroDivisionError.
Proof. reflexivity. Qed.

Example truediv_numpy_zero : truediv (NpFloat (Fin 0%Qc)) (NpInt64 0) = Ok (NpFloat NaN).
Proof. reflexivity. Qed.

Example truediv_numpy_inf :
  truediv (NpFloat (Fin (Qc_of_Z 3))) (NpInt64 0) = Ok (NpFloat (Inf false)).
Proof. reflexivity. Qed.

Example update_once :
  BinaryF1.update BinaryF1.init [Qc_of_Z 4; Qc_of_Z (-2); Qc_of_Z 0] [1; 1; 0]
  = {| BinaryF1.name := "F1";
       BinaryF1.y_true := NpInt64 2;
       BinaryF1.y_pred := NpInt64 1;
       BinaryF1.correct_true := NpFloat (Fin (Qc_of_Z 0 + Qc_of_Z 1)%Qc) |}.
Proof. reflexivity. Qed.

Example val_cases_head : take 3 Kits.val_cases = ["case_00007"; "case_00010"; "case_00014"].
Proof. reflexivity. Qed.

Example init_sorts_and_filters :
  Kits.init {[ ["case_00007"; "segmentation_frames"; "0012.png"];
               ["case_00007"; "segmentation_frames"; "0002.png"];
               ["case_00001"; "segmentation_frames"; "0002.png"];
               ["case_00007"; "imaging_frames"; "0002.jpg"] ]} "kits19_frames_1"
  = Ok {| Kits.basedir := "kits19_frames_1";
          Kits.dataset := [ ["case_00007"; "segmentation_frames"; "0002.png"];
                            ["case_00007"; "segmentation_frames"; "0012.png"] ] |}.
Proof. vm_compute. reflexivity. Qed.

Example getitem_last :
  Kits.getitem {| Kits.basedir := "kits19_frames_1";
                  Kits.dataset := [ ["case_00007"; "segmentation_frames"; "0002.png"];
                                    ["case_00007"; "segmentation_frames"; "0012.png"] ] |}
               (-1)
  = Ok {| Kits.item_index := -1;
          Kits.mask_path := ["case_00007"; "segmentation_frames"; "0012.png"];
          Kits.case := "case_00007"; Kits.slice := "0012" |}.
Proof. reflexivity. Qed.

Example getitem_past_the_end :
  Kits.getitem {| Kits.basedir := "kits19_frames_1";
                  Kits.dataset := [ ["case_00007"; "segmentation_frames"; "0002.png"] ] |}
               1
  = Raise IndexError.
Proof. reflexivity. Qed.

Example argmax_first_of_ties :
  Bert.argmax [Qc_of_Z 1; Qc_of_Z 3; Qc_of_Z 3] = Ok 1.
Proof. reflexivity. Qed.

Example validate_two_items :
  (Bert.validate
     (fun _ : unit =>
        {| Bert.input_names := ["input_ids"];
           Bert.call := fun inputs =>
             [[Qc_of_Z 0; Qc_of_Z (BinaryF1.Zsum (concat inputs))]] |})
     (fun m => Ok {[ "f1" := PyInt (BinaryF1.Zsum (Bert.predictions m)) ]})
     tt
     [ {[ "input_ids" := Bert.VInts [1; 2]; "labels" := Bert.VInt 1 ]};
       {[ "input_ids" := Bert.VInts [-4; 1]; "labels" := Bert.VInt 0 ]} ]
     {| Bert.metrics := ∅ |}).2
  = Ok (PyInt 1).
Proof. vm_compute. reflexivity. Qed.

Example validate_missing_label :
  (Bert.validate
     (fun _ : unit =>
        {| Bert.input_names := ["input_ids"];
           Bert.call := fun inputs => [[Qc_of_Z 0; Qc_of_Z 1]] |})
     (fun m => Ok {[ "f1" := PyInt 0 ]})
     tt
     [ {[ "input_ids" := Bert.VInts [1; 2] ]} ]
     {| Bert.metrics := ∅ |}).2
  = Raise KeyError.
Proof. vm_compute. reflexivity. Qed.

(** ** The sign test is the source's binarisation *)

Section SigmoidFacts.
Local Open Scope R_scope.

Lemma sigmoid_closed_form (x : R) : sigmoid x = / (1 + exp (- x)).
Proof.
  unfold sigmoid, logaddexp. rewrite exp_0, exp_Ropp, exp_ln; [reflexivity|].
  pose proof (exp_pos (- x)). lra.
Qed.

Lemma sigmoid_range (x : R) : 0 < sigmoid x < 1.
Proof.
  rewrite sigmoid_closed_form. pose proof (exp_pos (- x)) as He.
  split.
  - apply Rinv_0_lt_compat. lra.
  - rewrite <- Rinv_1 at 2. apply Rinv_lt_contravar; lra.
Qed.

Lemma sigmoid_above_half (x : R) : 1 / 2 < sigmoid x <-> 0 < x.
Proof.
  rewrite sigmoid_closed_form. pose proof (exp_pos (- x)) as He.
  assert (Hlt : exp (- x) < 1 <-> 0 < x).
  { rewrite <- exp_0. split; intros H.
    - apply exp_lt_inv in H. lra.
    - apply exp_increasing. lra. }
  rewrite <- Hlt. split; intros H.
  - assert (H2 : / (1 + exp (- x)) * (1 + exp (- x)) = 1) by (apply Rinv_l; lra).
    nra.
  - replace (1 / 2) with (/ 2) by lra. apply Rinv_lt_contravar; nra.
Qed.

Lemma round_half_even_unit (y : R) :
  0 < y < 1 -> round_half_even y = if Rlt_dec (1 / 2) y then 1%Z else 0%Z.
Proof.
  intros Hy. unfold round_half_even.
  assert (Hi : Int_part y = 0%Z).
  { symmetry. apply Int_part_spec. simpl. lra. }
  assert (Hf : frac_part y = y) by (unfold frac_part; rewrite Hi; simpl; lra).
  rewrite Hi, Hf. simpl.
  destruct (Rlt_dec y (1 / 2)), (Rlt_dec (1 / 2) y); try reflexivity; lra.
Qed.

Lemma binarize_real_sign (x : R) :
  binarize_real x = if Rlt_dec 0 x then 1%Z else 0%Z.
Proof.
  unfold binarize_real. rewrite round_half_even_unit by apply sigmoid_range.
  pose proof (sigmoid_above_half x) as Hh.
  destruct (Rlt_dec (1 / 2) (sigmoid x)), (Rlt_dec 0 x); try reflexivity; tauto.
Qed.

(** On every rational output the executable test agrees with
    [sigmoid(x).round().astype(np.byte)] evaluated over the reals. *)
Lemma binarize_correct (x : Qc) : binarize x = binarize_real (Q2R x).
Proof.
  rewrite binarize_real_sign. unfold binarize.
  destruct (decide (0 < x)%Qc) as [Hx|Hx], (Rlt_dec 0 (Q2R x)) as [Hr|Hr];
    try reflexivity; exfalso.
  - apply Hr. rewrite <- RMicromega.Q2R_0. apply Qreals.Qlt_Rlt. exact Hx.
  - apply Hx. rewrite <- RMicromega.Q2R_0 in Hr. apply Qreals.Rlt_Qlt in Hr. exact Hr.
Qed.

End SigmoidFacts.

(** ** Arithmetic of the embedded numbers *)

Section NumFacts.

Lemma wrap64_small (z : Z) : int64_min <= z <= int64_max -> wrap64 z = z.
Proof.
  unfold wrap64, int64_min, int64_max, int64_modulus. intros H.
  rewrite Z.mod_small; lia.
Qed.

Lemma wrap64_add_l (a b : Z) : wrap64 (wrap64 a + b) = wrap64 (a + b).
Proof.
  unfold wrap64, int64_modulus. f_equal.
  replace (a + 2 ^ 63 + b) with (a + b + 2 ^ 63) by lia.
  replace ((a + 2 ^ 63) mod 2 ^ 64 - 2 ^ 63 + b + 2 ^ 63)
    with ((a + 2 ^ 63) mod 2 ^ 64 + b) by lia.
  rewrite Zplus_mod_idemp_l. f_equal. lia.
Qed.

Lemma wrap64_add_r (a b : Z) : wrap64 (a + wrap64 b) = wrap64 (a + b).
Proof. rewrite Z.add_comm, wrap64_add_l. f_equal. lia. Qed.

Lemma as_byte_small (z : Z) : -128 <= z < 128 -> as_byte z = z.
Proof. unfold as_byte. intros H. rewrite Z.mod_small; lia. Qed.

Lemma binarize_cases (x : Qc) : binarize x = 0 \/ binarize x = 1.
Proof. unfold binarize. destruct (decide (0 < x)%Qc); auto. Qed.

Lemma is_numpy_add_r (a b : scalar) : is_numpy b = true -> is_numpy (add a b) = true.
Proof. destruct a, b; simpl; intros H; try discriminate; reflexivity. Qed.

Lemma fdiv_zero_special (x : fval) :
  fdiv x (Fin 0%Qc) = NaN \/ exists s, fdiv x (Fin 0%Qc) = Inf s.
Proof.
  destruct x as [q|s|]; simpl; auto.
  - destruct (decide (0%Qc = 0%Qc)) as [_|Hne]; [|congruence].
    destruct (decide (q = 0%Qc)); eauto.
  - eauto.
Qed.

(** A quotient whose two sides have met an infinity or a NaN is a NaN. *)
Lemma f1_of_special (x p r : fval) :
  r = NaN \/ (exists s, r = Inf s) -> fdiv (fmul x r) (fadd p r) = NaN.
Proof.
  intros [->|[s ->]].
  - destruct x, p; reflexivity.
  - destruct x as [q|t|], p as [q'|t'|]; simpl; try reflexivity;
      repeat match goal with
        | |- context [decide (?a = ?b)] => destruct (decide (a = b))
        | |- context [Bool.eqb ?a ?b] => destruct (Bool.eqb a b)
        end; reflexivity.
Qed.

End NumFacts.

(** ** [BinaryF1]: reading the score *)

Section AvgValue.
Import BinaryF1.

Lemma update_updated (s : t) output target : updated (update s output target).
Proof. repeat split; simpl; apply is_numpy_add_r; reflexivity. Qed.

Lemma run_updated (calls : list (list Qc * list Z)) (s : t) :
  updated s -> updated (run s calls).
Proof.
  revert s. induction calls as [|c calls IH]; intros s Hs; [exact Hs|].
  apply IH, update_updated.
Qed.

Lemma run_name (calls : list (list Qc * list Z)) (s : t) :
  name (run s calls) = name s.
Proof.
  revert s. induction calls as [|c calls IH]; intros s; [reflexivity|].
  simpl. unfold run in IH. rewrite IH. reflexivity.
Qed.

(** On numpy counters no division raises: the score is the quotient of
    the embedded floats. *)
Lemma avg_value_updated (s : t) :
  updated s ->
  avg_value s =
    let recall := fdiv (to_fval (correct_true s)) (to_fval (y_pred s)) in
    let precision := fdiv (to_fval (correct_true s)) (to_fval (y_true s)) in
    Ok {[ name s :=
            NpFloat (fdiv (fmul (fmul (Fin (Qc_of_Z 2)) precision) recall)
                          (fadd precision recall)) ]}.
Proof.
  intros (Ht & Hp & Hc). unfold avg_value, truediv.
  rewrite Hc. reflexivity.
Qed.

Lemma avg_value_updated_zero_pred (s : t) :
  updated s -> is_zero (y_pred s) = true ->
  avg_value s = Ok {[ name s := NpFloat NaN ]}.
Proof.
  intros Hs Hz. rewrite avg_value_updated by exact Hs. cbv zeta.
  unfold is_zero in Hz. destruct (to_fval (y_pred s)) as [q| |]; try discriminate.
  apply bool_decide_eq_true in Hz. subst q.
  rewrite f1_of_special; [reflexivity|]. apply fdiv_zero_special.
Qed.

End AvgValue.

(** C1, as the code has it. Read before any [update], in the initial or the
    reset state, [avg_value] raises [ZeroDivisionError]. Read after at least
    one [update], in a state whose predicted-positive count [y_pred] is
    zero, it does not raise and returns NaN; in neither case is the score
    0. *)
Theorem avg_value_without_predicted_positives :
  (forall m : BinaryF1.t,
     BinaryF1.avg_value (BinaryF1.reset m) = Raise ZeroDivisionError) /\
  (forall (m : BinaryF1.t) output target calls,
     let s := BinaryF1.run (BinaryF1.update m output target) calls in
     is_zero (BinaryF1.y_pred s) = true ->
     BinaryF1.avg_value s = Ok {[ BinaryF1.name m := NpFloat NaN ]}).
Proof.
  split.
  - intros m. reflexivity.
  - intros m output target calls s Hz.
    replace (BinaryF1.name m) with (BinaryF1.name s)
      by (unfold s; rewrite run_name; reflexivity).
    apply avg_value_updated_zero_pred; [|exact Hz].
    apply run_updated, update_updated.
Qed.

Lemma avg_value_without_predicted_positives_witness :
  let s := BinaryF1.run (BinaryF1.update BinaryF1.init [Qc_of_Z (-3)] [1]) [] in
  is_zero (BinaryF1.y_pred s) = true /\
  BinaryF1.avg_value s = Ok {[ "F1" := NpFloat NaN ]}.
Proof.
  assert (H : is_zero (BinaryF1.y_pred
                (BinaryF1.run (BinaryF1.update BinaryF1.init [Qc_of_Z (-3)] [1]) []))
              = true) by (vm_compute; reflexivity).
  split; [exact H|].
  exact (proj2 avg_value_without_predicted_positives
           BinaryF1.init [Qc_of_Z (-3)] [1] [] H).
Defined.

(** C1 as stated fails: a new metric object raises instead of returning 0,
    and after an update without predicted positives the score is NaN. *)
Lemma avg_value_zero_counterexample :
  BinaryF1.avg_value BinaryF1.init = Raise ZeroDivisionError /\
  BinaryF1.y_pred (BinaryF1.update BinaryF1.init [Qc_of_Z (-3)] [1]) = NpInt64 0 /\
  BinaryF1.avg_value (BinaryF1.update BinaryF1.init [Qc_of_Z (-3)] [1])
  = Ok {[ "F1" := NpFloat NaN ]}.
Proof. repeat split. Qed.

(** ** [BinaryF1]: the score as a Dice coefficient *)

Section Dice.
Import BinaryF1.

Lemma Qc_of_Z_neq_0 (z : Z) : z <> 0 -> Qc_of_Z z <> 0%Qc.
Proof. rewrite <- Z2Qc_inj_0. intros Hz H. apply Z2Qc_inj in H. contradiction. Qed.

Lemma Qc_of_Z_2_neq_0 : Qc_of_Z 2 <> 0%Qc.
Proof. apply Qc_of_Z_neq_0. discriminate. Qed.

Lemma Qc_of_Z_2_pos : (0 < Qc_of_Z 2)%Qc.
Proof. rewrite <- Z2Qc_inj_0. apply (proj1 (Z2Qc_inj_lt 0 2)). lia. Qed.

Lemma f1_finite (t p c : Qc) :
  t <> 0%Qc -> p <> 0%Qc -> c <> 0%Qc -> (t + p)%Qc <> 0%Qc ->
  fdiv (fmul (fmul (Fin (Qc_of_Z 2)) (fdiv (Fin c) (Fin t))) (fdiv (Fin c) (Fin p)))
       (fadd (fdiv (Fin c) (Fin t)) (fdiv (Fin c) (Fin p)))
  = Fin (Qc_of_Z 2 * c / (t + p))%Qc.
Proof.
  intros Ht Hp Hc Htp. simpl.
  destruct (decide (t = 0%Qc)) as [|_]; [contradiction|].
  destruct (decide (p = 0%Qc)) as [|_]; [contradiction|].
  simpl.
  assert (Hden : (c / t + c / p = c * (t + p) / (t * p))%Qc) by (field; auto).
  destruct (decide ((c / t + c / p)%Qc = 0%Qc)) as [Hz|_].
  - exfalso. rewrite Hden in Hz.
    assert (Hprod : (c * (t + p))%Qc = 0%Qc).
    { transitivity ((c * (t + p) / (t * p)) * (t * p))%Qc; [field; auto|].
      rewrite Hz. ring. }
    apply Qcmult_integral in Hprod. tauto.
  - f_equal. field. repeat split; auto.
    intros Hz. replace (c * p + c * t)%Qc with (c * (t + p))%Qc in Hz by ring.
    apply Qcmult_integral in Hz. tauto.
Qed.

(** With all counters nonzero the score is [2 * correct_true / (y_true +
    y_pred)]. *)
Lemma avg_value_dice (s : t) (yt yp ct : Qc) :
  updated s ->
  to_fval (y_true s) = Fin yt -> to_fval (y_pred s) = Fin yp ->
  to_fval (correct_true s) = Fin ct ->
  yt <> 0%Qc -> yp <> 0%Qc -> ct <> 0%Qc -> (yt + yp)%Qc <> 0%Qc ->
  avg_value s = Ok {[ name s := NpFloat (Fin (Qc_of_Z 2 * ct / (yt + yp))%Qc) ]}.
Proof.
  intros Hs Ht Hp Hc Hyt Hyp Hct Hsum.
  rewrite avg_value_updated by exact Hs. cbv zeta.
  rewrite Ht, Hp, Hc, f1_finite by assumption. reflexivity.
Qed.

Lemma fmul_comm (a b : fval) : fmul a b = fmul b a.
Proof.
  destruct a as [x|s|], b as [y|s'|]; simpl; try reflexivity.
  - f_equal. ring.
  - f_equal. apply xorb_comm.
Qed.

Lemma fadd_comm (a b : fval) : fadd a b = fadd b a.
Proof.
  destruct a as [x|s|], b as [y|s'|]; simpl; try reflexivity.
  - f_equal. ring.
  - destruct s, s'; reflexivity.
Qed.

Lemma is_neg_double (q : Qc) : is_neg (Qc_of_Z 2 * q)%Qc = is_neg q.
Proof.
  unfold is_neg. apply bool_decide_ext.
  rewrite (Qcmult_lt_mono_pos_l q 0 (Qc_of_Z 2) Qc_of_Z_2_pos).
  rewrite Qcmult_0_r. reflexivity.
Qed.

Lemma double_eq_0 (q : Qc) : (Qc_of_Z 2 * q)%Qc = 0%Qc <-> q = 0%Qc.
Proof.
  split; intros H; [|subst; ring].
  apply Qcmult_integral in H. destruct H as [H|H]; [|assumption].
  exfalso. revert H. apply Qc_of_Z_2_neq_0.
Qed.

(** The numerator [2 * precision * recall] does not depend on which of
    the two ratios is multiplied first. *)
Lemma fmul_double_swap (a b : fval) :
  fmul (fmul (Fin (Qc_of_Z 2)) a) b = fmul (fmul (Fin (Qc_of_Z 2)) b) a.
Proof.
  pose proof Qc_of_Z_2_neq_0 as H2.
  assert (Hn2 : is_neg (Qc_of_Z 2) = false).
  { unfold is_neg. apply bool_decide_eq_false. apply Qcle_not_lt.
    apply Qclt_le_weak, Qc_of_Z_2_pos. }
  destruct a as [x|s|], b as [y|s'|]; simpl; try reflexivity.
  - f_equal. ring.
  - rewrite Hn2, is_neg_double.
    destruct (decide ((Qc_of_Z 2 * x)%Qc = 0%Qc)) as [Hz|Hz],
             (decide (x = 0%Qc)) as [Hx|Hx]; simpl; try reflexivity.
    + apply (proj1 (double_eq_0 _)) in Hz. contradiction.
    + subst x. exfalso. apply Hz. ring.
    + f_equal. destruct s', (is_neg x); reflexivity.
  - rewrite Hn2, is_neg_double.
    destruct (decide ((Qc_of_Z 2 * y)%Qc = 0%Qc)) as [Hz|Hz],
             (decide (y = 0%Qc)) as [Hy|Hy]; simpl; try reflexivity.
    + apply (proj1 (double_eq_0 _)) in Hz. contradiction.
    + subst y. exfalso. apply Hz. ring.
    + f_equal. destruct s, (is_neg y); reflexivity.
  - rewrite Hn2. f_equal. destruct s, s'; reflexivity.
Qed.

(** A quotient is a float: the result of [/] is never an integer. *)
Lemma truediv_float (a b r : scalar) :
  truediv a b = Ok r -> exists x, r = PyFloat x \/ r = NpFloat x.
Proof.
  unfold truediv. destruct (is_numpy a || is_numpy b); [|destruct (is_zero b)];
    intros H; inversion H; eauto.
Qed.

Lemma f1_swap (p r : scalar) :
  (exists x, p = PyFloat x \/ p = NpFloat x) ->
  (exists y, r = PyFloat y \/ r = NpFloat y) ->
  truediv (mul (mul (PyInt 2) p) r) (add p r)
  = truediv (mul (mul (PyInt 2) r) p) (add r p).
Proof.
  intros [x [->| ->]] [y [->| ->]]; unfold truediv, mul, add, arith, is_zero;
    cbn [is_numpy to_fval orb];
    rewrite (fmul_double_swap x y), (fadd_comm x y); reflexivity.
Qed.

End Dice.

(** C8, as the code has it. In every state that [update] has produced and
    in which [y_true], [y_pred], [correct_true] and the sum [y_true +
    y_pred] are all nonzero, [avg_value] is the Dice coefficient
    [2 * correct_true / (y_true + y_pred)] (in exact arithmetic). In every
    state whatever, the result of [avg_value] is the same when the
    definitions of precision and recall are interchanged. *)
Theorem avg_value_is_dice :
  (forall (s : BinaryF1.t) (yt yp ct : Qc),
     BinaryF1.updated s ->
     to_fval (BinaryF1.y_true s) = Fin yt ->
     to_fval (BinaryF1.y_pred s) = Fin yp ->
     to_fval (BinaryF1.correct_true s) = Fin ct ->
     yt <> 0%Qc -> yp <> 0%Qc -> ct <> 0%Qc -> (yt + yp)%Qc <> 0%Qc ->
     BinaryF1.avg_value s
     = Ok {[ BinaryF1.name s := NpFloat (Fin (Qc_of_Z 2 * ct / (yt + yp))%Qc) ]}) /\
  (forall s : BinaryF1.t, BinaryF1.avg_value_swapped s = BinaryF1.avg_value s).
Proof.
  split; [exact avg_value_dice|].
  intros s. unfold BinaryF1.avg_value_swapped, BinaryF1.avg_value.
  destruct (truediv (BinaryF1.correct_true s) (BinaryF1.y_true s)) as [p|e] eqn:Hp,
           (truediv (BinaryF1.correct_true s) (BinaryF1.y_pred s)) as [r|e'] eqn:Hr;
    unfold mbind, result_bind; cbn [rbind].
  - rewrite (f1_swap p r); [reflexivity| |]; eapply truediv_float; eassumption.
  - reflexivity.
  - unfold truediv in Hp.
    destruct (is_numpy (BinaryF1.correct_true s) || is_numpy (BinaryF1.y_true s));
      [discriminate|]. destruct (is_zero (BinaryF1.y_true s)); [|discriminate].
    inversion Hp. reflexivity.
  - unfold truediv in Hp, Hr.
    destruct (is_numpy (BinaryF1.correct_true s) || is_numpy (BinaryF1.y_true s));
      [discriminate|]. destruct (is_zero (BinaryF1.y_true s)); [|discriminate].
    destruct (is_numpy (BinaryF1.correct_true s) || is_numpy (BinaryF1.y_pred s));
      [discriminate|]. destruct (is_zero (BinaryF1.y_pred s)); [|discriminate].
    inversion Hp; inversion Hr. reflexivity.
Qed.

Lemma avg_value_is_dice_witness :
  let s := BinaryF1.update BinaryF1.init [Qc_of_Z 1] [1] in
  let one := (Qc_of_Z 0 + Qc_of_Z 1)%Qc in
  BinaryF1.updated s /\
  BinaryF1.avg_value s
  = Ok {[ "F1" := NpFloat (Fin (Qc_of_Z 2 * one / (Qc_of_Z 1 + Qc_of_Z 1))%Qc) ]}.
Proof.
  pose proof Qc_of_Z_neq_0 as Hne.
  assert (Hu : BinaryF1.updated (BinaryF1.update BinaryF1.init [Qc_of_Z 1] [1]))
    by (repeat split).
  split; [exact Hu|].
  apply (proj1 avg_value_is_dice
           (BinaryF1.update BinaryF1.init [Qc_of_Z 1] [1])
           (Qc_of_Z 1) (Qc_of_Z 1) (Qc_of_Z 0 + Qc_of_Z 1)%Qc Hu).
  - reflexivity.
  - reflexivity.
  - reflexivity.
  - apply Hne. lia.
  - apply Hne. lia.
  - rewrite <- Z2Qc_inj_add. apply Hne. lia.
  - rewrite <- Z2Qc_inj_add. apply Hne. lia.
Defined.

(** C8 as stated fails: with one missed foreground pixel and one false
    alarm both counters are 1 and [correct_true] is 0; the Dice coefficient
    is 0, the value returned is NaN. *)
Lemma avg_value_dice_counterexample :
  let s := BinaryF1.update BinaryF1.init [Qc_of_Z (-1); Qc_of_Z 1] [1; 0] in
  BinaryF1.y_true s = NpInt64 1 /\ BinaryF1.y_pred s = NpInt64 1 /\
  is_zero (BinaryF1.correct_true s) = true /\
  BinaryF1.avg_value s = Ok {[ "F1" := NpFloat NaN ]}.
Proof. repeat split. Qed.

(** ** [BinaryF1]: the counters along a run *)

Section Counters.
Import BinaryF1.

Lemma Zsum_cons (x : Z) (l : list Z) : Zsum (x :: l) = x + Zsum l.
Proof. reflexivity. Qed.

Lemma counts_reset (m : t) : counts (reset m) 0 0 0.
Proof. unfold counts. simpl. auto. Qed.

Lemma add_int_count (x : scalar) (a b : Z) :
  x = NpInt64 (wrap64 a) \/ x = PyInt 0 /\ a = 0 ->
  add x (NpInt64 (wrap64 b)) = NpInt64 (wrap64 (a + b)).
Proof.
  intros [->|[-> ->]]; unfold add, arith.
  - rewrite wrap64_add_l, wrap64_add_r. reflexivity.
  - rewrite wrap64_add_r. reflexivity.
Qed.

Lemma add_float_count (x : scalar) (h k : Z) :
  x = NpFloat (Fin (Qc_of_Z h)) \/ x = PyInt 0 /\ h = 0 ->
  add x (astype_float32 (NpInt64 k)) = NpFloat (Fin (Qc_of_Z (h + k))).
Proof.
  intros [->|[-> ->]]; unfold add, arith, astype_float32; simpl;
    rewrite Z2Qc_inj_add; reflexivity.
Qed.

Lemma update_counts (s : t) (a p h : Z) (c : list Qc * list Z) :
  counts s a p h ->
  counts (update s c.1 c.2) (a + label_sum c) (p + pred_sum c) (h + wrap64 (hit_sum c)).
Proof.
  intros (Ha & Hp & Hh). unfold counts, update, np_sum. cbn [y_true y_pred correct_true].
  repeat split; left.
  - apply add_int_count, Ha.
  - apply add_int_count, Hp.
  - apply add_float_count, Hh.
Qed.

Lemma run_counts (calls : list (list Qc * list Z)) (s : t) (a p h : Z) :
  counts s a p h ->
  counts (run s calls) (a + label_total calls) (p + pred_total calls)
         (h + hit_total calls).
Proof.
  revert s a p h. induction calls as [|c calls IH]; intros s a p h Hs.
  - unfold label_total, pred_total, hit_total. simpl. rewrite !Z.add_0_r. exact Hs.
  - apply (update_counts s a p h c), IH in Hs.
    unfold label_total, pred_total, hit_total in *.
    rewrite !fmap_cons, !Zsum_cons, !Z.add_assoc. exact Hs.
Qed.

Lemma counts_values (s : t) (a p h : Z) :
  counts s a p h ->
  to_fval (y_true s) = Fin (Qc_of_Z (wrap64 a)) /\
  to_fval (y_pred s) = Fin (Qc_of_Z (wrap64 p)) /\
  to_fval (correct_true s) = Fin (Qc_of_Z h).
Proof.
  intros (Ha & Hp & Hh). repeat split.
  - destruct Ha as [->|[-> ->]]; reflexivity.
  - destruct Hp as [->|[-> ->]]; reflexivity.
  - destruct Hh as [->|[-> ->]]; reflexivity.
Qed.

Lemma run_cons (s : t) (c : list Qc * list Z) (calls : list (list Qc * list Z)) :
  run s (c :: calls) = run (update s c.1 c.2) calls.
Proof. reflexivity. Qed.

Lemma run_app (s : t) (before after : list (list Qc * list Z)) :
  run s (before ++ after) = run (run s before) after.
Proof. unfold run. apply foldl_app. Qed.

Lemma Zsum_app (l k : list Z) : Zsum (l ++ k) = Zsum l + Zsum k.
Proof. induction l as [|x l IH]; simpl; [reflexivity|]. rewrite IH. lia. Qed.

Lemma Zsum_nonneg (l : list Z) : Forall (fun z => 0 <= z) l -> 0 <= Zsum l.
Proof. induction 1; simpl; lia. Qed.

Lemma Zsum_unit_bound (l : list Z) :
  Forall (fun z => z = 0 \/ z = 1) l -> 0 <= Zsum l <= Z.of_nat (length l).
Proof. induction 1 as [|x l Hx _ IH]; simpl; lia. Qed.

Lemma pred_sum_bound (c : list Qc * list Z) :
  0 <= pred_sum c <= Z.of_nat (length c.1).
Proof.
  unfold pred_sum.
  replace (length c.1) with (length (binarize <$> c.1)) by apply length_fmap.
  apply Zsum_unit_bound. apply Forall_fmap, Forall_true. intros x. apply binarize_cases.
Qed.

Lemma eq_byte_cases (a b : Z) : eq_byte a b = 0 \/ eq_byte a b = 1.
Proof. unfold eq_byte. destruct (a =? b); auto. Qed.

Lemma hits_unit (l p : list Z) : Forall (fun z => z = 0 \/ z = 1) (hits l p).
Proof.
  unfold hits. revert p. induction l as [|x l IH]; intros [|y p]; simpl;
    try constructor; [|apply IH].
  destruct (eq_byte_cases x y) as [-> | ->], (eq_byte_cases x 1) as [-> | ->]; auto.
Qed.

Lemma hit_sum_bound (c : list Qc * list Z) :
  0 <= hit_sum c <= Z.of_nat (length c.1).
Proof.
  unfold hit_sum.
  pose proof (Zsum_unit_bound _ (hits_unit (as_byte <$> c.2) (binarize <$> c.1))) as H.
  unfold hits in H at 3. rewrite length_zip_with, !length_fmap in H. lia.
Qed.

Lemma pred_total_bound (calls : list (list Qc * list Z)) :
  0 <= pred_total calls <= output_total calls.
Proof.
  unfold pred_total, output_total.
  induction calls as [|c calls IH]; [simpl; lia|].
  rewrite !fmap_cons, !Zsum_cons. pose proof (pred_sum_bound c). lia.
Qed.

Lemma output_total_nonneg (calls : list (list Qc * list Z)) : 0 <= output_total calls.
Proof. pose proof (pred_total_bound calls). lia. Qed.

Lemma hit_total_nonneg (calls : list (list Qc * list Z)) :
  output_total calls <= int64_max -> 0 <= hit_total calls.
Proof.
  unfold hit_total, output_total.
  induction calls as [|c calls IH]; [simpl; lia|].
  rewrite !fmap_cons, !Zsum_cons.
  intros Hb. pose proof (hit_sum_bound c) as Hc.
  pose proof (output_total_nonneg calls) as Hn. unfold output_total in Hn.
  rewrite wrap64_small by (unfold int64_min, int64_max in *; lia). lia.
Qed.

Lemma label_total_nonneg (calls : list (list Qc * list Z)) :
  Forall nonneg_labels calls -> 0 <= label_total calls.
Proof.
  unfold label_total. induction 1 as [|c calls Hc _ IH]; [simpl; lia|].
  rewrite fmap_cons, Zsum_cons.
  assert (0 <= label_sum c); [|lia].
  unfold label_sum. apply Zsum_nonneg, Forall_fmap. exact Hc.
Qed.

Lemma label_total_app (l k : list (list Qc * list Z)) :
  label_total (l ++ k) = label_total l + label_total k.
Proof. unfold label_total. rewrite fmap_app. apply Zsum_app. Qed.

Lemma pred_total_app (l k : list (list Qc * list Z)) :
  pred_total (l ++ k) = pred_total l + pred_total k.
Proof. unfold pred_total. rewrite fmap_app. apply Zsum_app. Qed.

Lemma output_total_app (l k : list (list Qc * list Z)) :
  output_total (l ++ k) = output_total l + output_total k.
Proof. unfold output_total. rewrite fmap_app. apply Zsum_app. Qed.

Lemma hit_total_app (l k : list (list Qc * list Z)) :
  hit_total (l ++ k) = hit_total l + hit_total k.
Proof. unfold hit_total. rewrite fmap_app. apply Zsum_app. Qed.

Lemma Qc_of_Z_le (a b : Z) : a <= b -> (Qc_of_Z a <= Qc_of_Z b)%Qc.
Proof. intros H. apply (proj1 (Z2Qc_inj_le a b)). exact H. Qed.

End Counters.

(** C10, as the code has it. As long as the [int64] counters do not
    overflow, from a reset state and after any calls whatever, along any
    further sequence of [update] calls [y_pred] and [correct_true] never
    decrease; [y_true] never decreases when the labels of these further
    calls are non-negative once cast to [np.byte] (pixel values 0 to 127,
    so every binary mask), whatever the labels of the earlier calls were.
    One call is the case [after = [(output, target)]]. *)
Theorem counters_monotone (m : BinaryF1.t)
    (before after : list (list Qc * list Z)) :
  let s := BinaryF1.run (BinaryF1.reset m) before in
  let s' := BinaryF1.run s after in
  BinaryF1.output_total (before ++ after) <= int64_max ->
  (scalar_le (BinaryF1.y_pred s) (BinaryF1.y_pred s') /\
   scalar_le (BinaryF1.correct_true s) (BinaryF1.correct_true s')) /\
  (Forall BinaryF1.nonneg_labels after ->
   int64_min <= BinaryF1.label_total before ->
   BinaryF1.label_total (before ++ after) <= int64_max ->
   scalar_le (BinaryF1.y_true s) (BinaryF1.y_true s')).
Proof.
  intros s s' Hout.
  pose proof (run_counts before _ 0 0 0 (counts_reset m)) as Hs.
  pose proof (run_counts after _ _ _ _ Hs) as Hs'.
  apply counts_values in Hs as (Ht & Hp & Hh).
  apply counts_values in Hs' as (Ht' & Hp' & Hh').
  fold s in Ht, Hp, Hh. fold s s' in Ht', Hp', Hh'.
  rewrite output_total_app in Hout.
  pose proof (pred_total_bound before) as Hpb.
  pose proof (pred_total_bound after) as Hpa.
  pose proof (output_total_nonneg before) as Hob.
  pose proof (output_total_nonneg after) as Hoa.
  unfold scalar_le. repeat split.
  - rewrite Hp, Hp'. simpl. apply Qc_of_Z_le.
    rewrite !wrap64_small by (unfold int64_min, int64_max in *; lia). lia.
  - rewrite Hh, Hh'. simpl. apply Qc_of_Z_le.
    assert (0 <= BinaryF1.hit_total after)
      by (apply hit_total_nonneg; unfold int64_max in *; lia).
    lia.
  - intros Hla Hmin Hsum. rewrite Ht, Ht'. simpl. apply Qc_of_Z_le.
    apply label_total_nonneg in Hla. rewrite label_total_app in Hsum.
    rewrite !wrap64_small by (unfold int64_min, int64_max in *; lia). lia.
Qed.

Lemma counters_monotone_witness :
  let s := BinaryF1.update (BinaryF1.reset BinaryF1.init) [Qc_of_Z 0] [255] in
  let s' := BinaryF1.update s [Qc_of_Z 1; Qc_of_Z (-1)] [1; 0] in
  BinaryF1.y_true s = NpInt64 (-1) /\
  scalar_le (BinaryF1.y_true s) (BinaryF1.y_true s') /\
  scalar_le (BinaryF1.y_pred s) (BinaryF1.y_pred s') /\
  scalar_le (BinaryF1.correct_true s) (BinaryF1.correct_true s').
Proof.
  pose proof (counters_monotone BinaryF1.init [([Qc_of_Z 0], [255])]
                [([Qc_of_Z 1; Qc_of_Z (-1)], [1; 0])]) as H.
  cbv zeta in H.
  assert (Hout : BinaryF1.output_total
                   ([([Qc_of_Z 0], [255])] ++ [([Qc_of_Z 1; Qc_of_Z (-1)], [1; 0])])
                 <= int64_max)
    by (vm_compute; discriminate).
  destruct (H Hout) as [[Hp Hc] Ht].
  split; [reflexivity|]. repeat split; [|exact Hp|exact Hc].
  apply Ht.
  - repeat constructor; vm_compute; discriminate.
  - vm_compute; discriminate.
  - vm_compute; discriminate.
Defined.

(** C10 as stated fails: a label pixel of value 255 is -1 as [np.byte],
    and the call lowers [y_true] from 0 to -1. *)
Lemma counters_monotone_counterexample :
  BinaryF1.y_true (BinaryF1.update BinaryF1.init [Qc_of_Z 0] [255]) = NpInt64 (-1) /\
  ~ BinaryF1.counters_le BinaryF1.init
      (BinaryF1.update BinaryF1.init [Qc_of_Z 0] [255]).
Proof.
  split; [reflexivity|]. intros (H & _). vm_compute in H. apply H. reflexivity.
Qed.

(** ** [BinaryF1]: a model that returns the ground truth *)

Section MockModel.
Import BinaryF1.

Lemma binarize_mock (px : Z) : binary px -> binarize (Qc_of_Z px) = px.
Proof. intros [-> | ->]; reflexivity. Qed.

Lemma binary_mask_label (mask : list Z) : Forall binary mask -> as_byte <$> mask = mask.
Proof.
  induction 1 as [|px mask Hpx _ IH]; [reflexivity|].
  rewrite fmap_cons, IH. destruct Hpx as [-> | ->]; reflexivity.
Qed.

Lemma binary_mask_prediction (mask : list Z) :
  Forall binary mask -> binarize <$> mock_model mask = mask.
Proof.
  unfold mock_model. induction 1 as [|px mask Hpx _ IH]; [reflexivity|].
  rewrite !fmap_cons, IH, binarize_mock by assumption. reflexivity.
Qed.

Lemma binary_mask_hits (mask : list Z) : Forall binary mask -> hits mask mask = mask.
Proof.
  unfold hits. induction 1 as [|px mask Hpx _ IH]; [reflexivity|].
  simpl. rewrite IH. destruct Hpx as [-> | ->]; reflexivity.
Qed.

Lemma binary_mask_sum (mask : list Z) : Forall binary mask -> Zsum mask = foreground mask.
Proof.
  unfold foreground. induction 1 as [|px mask Hpx _ IH]; [reflexivity|].
  rewrite Zsum_cons, IH, filter_cons.
  destruct Hpx as [-> | ->]; destruct (decide _) as [H|H]; try discriminate;
    try (exfalso; apply H; reflexivity); simpl length; lia.
Qed.

Lemma Zsum_Permutation (l k : list Z) : l ≡ₚ k -> Zsum l = Zsum k.
Proof.
  induction 1 as [|x l k _ IH|x y l|l k j _ IH1 _ IH2]; simpl; lia.
Qed.

(** On binary masks a ground-truth model makes every call add the
    foreground count of its mask to each of the three counters. *)
Lemma mock_call_sums (mask : list Z) :
  Forall binary mask ->
  label_sum (mock_model mask, mask) = foreground mask /\
  pred_sum (mock_model mask, mask) = foreground mask /\
  hit_sum (mock_model mask, mask) = foreground mask.
Proof.
  intros Hb. unfold label_sum, pred_sum, hit_sum. cbn [fst snd].
  rewrite binary_mask_label, binary_mask_prediction, binary_mask_hits by assumption.
  rewrite binary_mask_sum by assumption. auto.
Qed.

Lemma mock_totals (masks : list (list Z)) :
  Forall (Forall binary) masks ->
  Forall (fun f => int64_min <= f <= int64_max) (foreground <$> masks) ->
  let calls := (fun mask => (mock_model mask, mask)) <$> masks in
  label_total calls = Zsum (foreground <$> masks) /\
  pred_total calls = Zsum (foreground <$> masks) /\
  hit_total calls = Zsum (foreground <$> masks).
Proof.
  intros Hb Hf. cbv zeta. unfold label_total, pred_total, hit_total.
  induction Hb as [|mask masks Hm _ IH]; [auto|].
  rewrite !fmap_cons in *. apply Forall_cons in Hf as [Hf1 Hf].
  rewrite !Zsum_cons.
  destruct (IH Hf) as (-> & -> & ->).
  destruct (mock_call_sums mask Hm) as (-> & -> & ->).
  rewrite wrap64_small by assumption. auto.
Qed.

End MockModel.

(** C2. For four binary masks of which two have no foreground pixel and
    two have exactly 100, in any order and of any shape, scoring the model
    that returns the ground truth gives F1 = 1. *)
Theorem perfect_score_on_synthetic_masks (masks : list (list Z)) :
  Forall (Forall BinaryF1.binary) masks ->
  BinaryF1.foreground <$> masks ≡ₚ [0; 0; 100; 100] ->
  BinaryF1.score BinaryF1.mock_model masks = Ok {[ "F1" := NpFloat (Fin 1%Qc) ]}.
Proof.
  intros Hb Hperm. unfold BinaryF1.score.
  set (calls := (fun mask => (BinaryF1.mock_model mask, mask)) <$> masks).
  assert (Hrange : Forall (fun f => int64_min <= f <= int64_max)
                     (BinaryF1.foreground <$> masks)).
  { rewrite Hperm. repeat constructor; vm_compute; discriminate. }
  destruct (mock_totals masks Hb Hrange) as (Hl & Hp & Hh). fold calls in Hl, Hp, Hh.
  rewrite (Zsum_Permutation _ _ Hperm) in Hl, Hp, Hh.
  change (BinaryF1.Zsum [0; 0; 100; 100]) with 200 in Hl, Hp, Hh.
  pose proof (run_counts calls _ 0 0 0 (counts_reset BinaryF1.init)) as Hc.
  change (BinaryF1.reset BinaryF1.init) with BinaryF1.init in Hc.
  rewrite Hl, Hp, Hh in Hc.
  apply counts_values in Hc as (Ht & Hpr & Hct).
  assert (Hu : BinaryF1.updated (BinaryF1.run BinaryF1.init calls)).
  { destruct masks as [|mask masks'].
    - apply Permutation_length in Hperm. discriminate.
    - subst calls. rewrite fmap_cons, run_cons. apply run_updated, update_updated. }
  rewrite (avg_value_dice _ _ _ _ Hu Ht Hpr Hct);
    try (apply Qc_of_Z_neq_0; vm_compute; discriminate).
  - rewrite run_name. f_equal. f_equal. f_equal. f_equal.
    apply Qc_is_canon. reflexivity.
  - rewrite <- Z2Qc_inj_add. apply Qc_of_Z_neq_0. vm_compute. discriminate.
Qed.

Lemma perfect_score_on_synthetic_masks_witness :
  BinaryF1.score BinaryF1.mock_model
    [replicate 100 1; replicate 64 0; replicate 100 1 ++ replicate 28 0; replicate 9 0]
  = Ok {[ "F1" := NpFloat (Fin 1%Qc) ]}.
Proof.
  apply perfect_score_on_synthetic_masks.
  - unfold BinaryF1.binary. apply (bool_decide_unpack _). vm_compute. exact I.
  - change ([100; 0; 100; 0] ≡ₚ [0; 0; 100; 100]).
    apply (perm_trans (perm_swap 0 100 [100; 0])). apply perm_skip.
    apply (perm_trans (perm_skip 100 (perm_swap 0 100 []))). apply perm_swap.
Defined.

(** ** [KitsDataLoader]: construction and length *)

Section KitsFacts.
Import Kits.

Lemma sorted_Permutation (l : list path) : sorted l ≡ₚ l.
Proof. apply merge_sort_Permutation. Qed.

Lemma sorted_nil_iff (l : list path) : length (sorted l) = 0%nat <-> l = [].
Proof.
  rewrite (Permutation_length (sorted_Permutation l)). apply length_zero_iff_nil.
Qed.

Lemma filter_sorted_Permutation (P : path -> Prop) `{!forall m, Decision (P m)}
    (l : list path) :
  filter P (sorted l) ≡ₚ filter P l.
Proof. rewrite sorted_Permutation. reflexivity. Qed.

(** The constructor raises exactly when the pattern matches nothing;
    otherwise the data set is the sorted list of the matches that lie in
    a validation case. *)
Lemma filter_none {A : Type} (P : A -> Prop) `{!forall x, Decision (P x)} (l : list A) :
  Forall (fun x => ~ P x) l -> filter P l = [].
Proof.
  induction 1 as [|x l Hx _ IH]; [reflexivity|].
  rewrite filter_cons, IH. destruct (decide (P x)); [contradiction|reflexivity].
Qed.

Lemma init_cases (fs : tree) (basedir : string) :
  (glob fs = [] /\ init fs basedir = Raise ValueError) \/
  (glob fs <> [] /\
   init fs basedir
   = Ok {| basedir := basedir;
           dataset := filter (fun mask => case_name mask ∈ val_cases)
                             (sorted (glob fs)) |}).
Proof.
  unfold init. destruct (decide (length (sorted (glob fs)) = 0%nat)) as [H|H].
  - left. apply sorted_nil_iff in H. auto.
  - right. split; [|reflexivity]. intros Hnil. apply H, sorted_nil_iff, Hnil.
Qed.

End KitsFacts.

(** C3, as the code has it. Over a directory in which the pattern matches
    no mask the constructor raises [ValueError]. Over every directory with
    at least one mask the construction succeeds, and the length is the
    number of masks that lie in one of the validation cases, which need
    not be the number of masks. *)
Theorem kits_init_length (fs : Kits.tree) (basedir : string) :
  (Kits.glob fs = [] -> Kits.init fs basedir = Raise ValueError) /\
  (Kits.glob fs <> [] ->
   exists dl, Kits.init fs basedir = Ok dl /\
     Kits.len dl
     = length (filter (fun mask => Kits.case_name mask ∈ Kits.val_cases) (Kits.glob fs))).
Proof.
  destruct (init_cases fs basedir) as [[Hnil Hinit]|[Hne Hinit]]; split;
    try contradiction; intros _; [exact Hinit|].
  eexists. split; [exact Hinit|].
  unfold Kits.len. cbn [Kits.dataset].
  apply Permutation_length, filter_sorted_Permutation.
Qed.

Lemma kits_init_length_witness :
  Kits.init ∅ "kits19_frames_1" = Raise ValueError /\
  exists dl,
    Kits.init {[ ["case_00007"; "segmentation_frames"; "0001.png"];
                 ["case_00008"; "segmentation_frames"; "0001.png"] ]}
              "kits19_frames_1" = Ok dl /\
    Kits.len dl = 1%nat.
Proof.
  split.
  - apply (proj1 (kits_init_length ∅ "kits19_frames_1")). vm_compute. reflexivity.
  - destruct (proj2 (kits_init_length
                       {[ ["case_00007"; "segmentation_frames"; "0001.png"];
                          ["case_00008"; "segmentation_frames"; "0001.png"] ]}
                       "kits19_frames_1")) as (dl & Hinit & Hlen).
    + vm_compute. discriminate.
    + exists dl. split; [exact Hinit|]. rewrite Hlen. vm_compute. reflexivity.
Defined.

(** C3 as stated fails: the exception of an empty directory is a
    [ValueError], and a directory whose only mask lies outside the
    validation cases gives a data source of length 0, not 1. *)
Lemma kits_init_length_counterexample :
  Kits.init ∅ "kits19_frames_1" = Raise ValueError /\
  length (Kits.glob {[ ["case_00000"; "segmentation_frames"; "0001.png"] ]}) = 1%nat /\
  Kits.init {[ ["case_00000"; "segmentation_frames"; "0001.png"] ]} "kits19_frames_1"
  = Ok {| Kits.basedir := "kits19_frames_1"; Kits.dataset := [] |}.
Proof. repeat split. Qed.

(** C9. The emptiness check looks at all the masks, before the restriction
    to the validation cases: over a directory that holds masks, all of
    them outside the validation cases, the constructor succeeds and the
    length is 0. *)
Theorem kits_init_silently_empty (fs : Kits.tree) (basedir : string) :
  Kits.glob fs <> [] ->
  Forall (fun mask => Kits.case_name mask ∉ Kits.val_cases) (Kits.glob fs) ->
  exists dl, Kits.init fs basedir = Ok dl /\ Kits.len dl = 0%nat.
Proof.
  intros Hne Hout.
  destruct (init_cases fs basedir) as [[Hnil _]|[_ Hinit]]; [contradiction|].
  eexists. split; [exact Hinit|].
  unfold Kits.len. cbn [Kits.dataset].
  rewrite (Permutation_length (filter_sorted_Permutation _ _)).
  apply length_zero_iff_nil. apply filter_none. exact Hout.
Qed.

Lemma kits_init_silently_empty_witness :
  exists dl,
    Kits.init {[ ["case_00000"; "segmentation_frames"; "0001.png"];
                 ["case_00001"; "segmentation_frames"; "0001.png"] ]}
              "kits19_frames_1" = Ok dl /\
    Kits.len dl = 0%nat.
Proof.
  apply kits_init_silently_empty.
  - vm_compute. discriminate.
  - apply (bool_decide_unpack _). vm_compute. exact I.
Defined.


(** ** Statistics collection on a small data set *)

Section PipelineFacts.
Import Kits Pipeline.

Lemma list_index_in_range {A : Type} (l : list A) (i : nat) :
  (i < length l)%nat -> exists x, list_index l (Z.of_nat i) = Ok x /\ l !! i = Some x.
Proof.
  intros Hi. unfold list_index.
  destruct (Z.ltb_spec (Z.of_nat i) 0) as [Hneg|_]; [lia|].
  destruct (Z.leb_spec 0 (Z.of_nat i)) as [_|Hneg]; [|lia].
  destruct (Z.ltb_spec (Z.of_nat i) (Z.of_nat (length l))) as [_|Hge]; [|lia].
  rewrite Nat2Z.id. simpl.
  destruct (lookup_lt_is_Some_2 l i Hi) as [x Hx]. rewrite Hx. eauto.
Qed.

Lemma getitem_in_range (dl : t) (i : nat) :
  (i < len dl)%nat -> exists it, getitem dl (Z.of_nat i) = Ok it.
Proof.
  intros Hi. unfold getitem.
  destruct (list_index_in_range (dataset dl) i Hi) as (m & -> & _). simpl. eauto.
Qed.

Lemma mapM_result_ok {A B : Type} (f : A -> result B) (l : list A) :
  Forall (fun a => exists b, f a = Ok b) l ->
  exists bs, mapM f l = Ok bs /\ length bs = length l.
Proof.
  induction 1 as [|a l [b Hb] _ (bs & Hbs & Hlen)]; [exists []; auto|].
  exists (b :: bs). simpl. rewrite Hb, Hbs. simpl. rewrite Hlen. auto.
Qed.

Lemma reads_in_range (n : nat) :
  Forall (fun i => 0 <= i < Z.of_nat n) (Z.of_nat <$> seq 0 n).
Proof.
  apply Forall_fmap, Forall_forall. intros i Hi. apply elem_of_seq in Hi. simpl. lia.
Qed.

End PipelineFacts.

(** C5, as amended for the empty data set, against [collect_statistics]
    modelled from the spec. Given a [subset_size] greater than the length
    of a non-empty data set, statistics collection does not raise, asks the
    data source for the indices [0 .. len - 1] and no other, observes
    exactly [len] samples, and leaves one note, of warning level. *)
Theorem collect_statistics_small_dataset {Model Stat : Type}
    (observe : Model -> Kits.item -> Stat) (model : Model)
    (dl : Kits.t) (subset_size : nat) :
  (0 < Kits.len dl)%nat -> (Kits.len dl < subset_size)%nat ->
  exists c,
    Pipeline.collect_statistics observe model dl subset_size = Ok c /\
    Pipeline.reads c = Z.of_nat <$> seq 0 (Kits.len dl) /\
    Forall (fun i => 0 <= i < Z.of_nat (Kits.len dl)) (Pipeline.reads c) /\
    length (Pipeline.observations c) = Kits.len dl /\
    Pipeline.severity <$> Pipeline.notes c = [Pipeline.Warning].
Proof.
  intros Hpos Hlt. unfold Pipeline.collect_statistics.
  destruct (decide (Kits.len dl = 0%nat)) as [H0|_]; [lia|].
  rewrite Nat.min_r by lia.
  destruct (mapM_result_ok (Kits.getitem dl) (Z.of_nat <$> seq 0 (Kits.len dl)))
    as (items & -> & Hlen).
  { apply Forall_fmap, Forall_forall. intros i Hi. apply elem_of_seq in Hi.
    apply getitem_in_range. lia. }
  rewrite length_fmap, length_seq in Hlen.
  destruct (decide (Kits.len dl < subset_size)%nat) as [_|Hge]; [|lia].
  eexists. split; [reflexivity|]. cbn.
  repeat split; [apply reads_in_range|].
  rewrite length_fmap. exact Hlen.
Qed.

Lemma collect_statistics_small_dataset_witness :
  exists c,
    Pipeline.collect_statistics (fun (_ : unit) (it : Kits.item) => Kits.slice it) tt
      {| Kits.basedir := "kits19_frames_1";
         Kits.dataset := [ ["case_00007"; "segmentation_frames"; "0001.png"] ] |}
      Pipeline.stat_subset_size = Ok c /\
    Pipeline.reads c = [0] /\
    length (Pipeline.observations c) = 1%nat.
Proof.
  destruct (collect_statistics_small_dataset
              (fun (_ : unit) (it : Kits.item) => Kits.slice it) tt
              {| Kits.basedir := "kits19_frames_1";
                 Kits.dataset := [ ["case_00007"; "segmentation_frames"; "0001.png"] ] |}
              Pipeline.stat_subset_size)
    as (c & Hc & Hreads & _ & Hlen & _).
  - vm_compute. lia.
  - vm_compute. lia.
  - exists c. repeat split; assumption.
Defined.

(** C5 as stated fails on the data set of length 0, which is smaller than
    every positive [subset_size]: there the statistics pass is fatal. *)
Lemma collect_statistics_counterexample :
  Pipeline.collect_statistics (fun (_ : unit) (it : Kits.item) => Kits.slice it) tt
    {| Kits.basedir := "kits19_frames_1"; Kits.dataset := [] |}
    Pipeline.stat_subset_size
  = Raise ConfigurationError.
Proof. reflexivity. Qed.

(** ** The asynchronous queue: every request calls back once *)

Section QueueFacts.
Import AsyncQueue.
Context {Input Tag : Type}.
Implicit Types (q : state Input Tag) (frames : list (Input * Tag)).

Lemma complete_spec k q q' :
  complete k q = Some q' ->
  exists inputs userdata,
    in_flight q !! k = Some (inputs, userdata) /\
    in_flight q' = delete k (in_flight q) /\
    callbacks q' = callbacks q ++ [userdata].
Proof.
  unfold complete. destruct (in_flight q !! k) as [[inputs userdata]|] eqn:Hk;
    intros H; inversion H; subst. simpl. eauto.
Qed.

(** Nothing is lost and nothing is made up: along a run, the callbacks
    made, the requests in flight and the frames still to submit always
    add up to the same bag of user data. *)
Lemma runs_conserves frames q q' :
  runs frames q q' ->
  in_flight q' = [] /\
  callbacks q' ≡ₚ callbacks q ++ (snd <$> in_flight q) ++ (snd <$> frames).
Proof.
  induction 1 as [inputs userdata frames q q' _ [Hnil IH]
                 |frames q q1 q' Hstep _ [Hnil IH]
                 |q Hnil].
  - split; [exact Hnil|]. rewrite IH. simpl. rewrite fmap_app, fmap_cons. simpl.
    rewrite <- !app_assoc. reflexivity.
  - split; [exact Hnil|]. rewrite IH. destruct Hstep as [k q q1 Hc].
    apply complete_spec in Hc as (inputs & userdata & Hk & -> & ->).
    rewrite (delete_Permutation (in_flight q) k _ Hk) at 2.
    rewrite fmap_cons. simpl. rewrite <- app_assoc. reflexivity.
  - split; [exact Hnil|]. rewrite Hnil. simpl. rewrite app_nil_r. reflexivity.
Qed.

Lemma complete_in_range k q :
  (k < length (in_flight q))%nat ->
  exists q', complete k q = Some q' /\
             length (in_flight q') = (length (in_flight q) - 1)%nat.
Proof.
  intros Hk. unfold complete.
  destruct (lookup_lt_is_Some_2 _ _ Hk) as [[inputs userdata] ->].
  eexists. split; [reflexivity|]. simpl. rewrite length_delete by eauto using lookup_lt_is_Some_2.
  reflexivity.
Qed.

(** [wait_all] returns, whatever the schedule, and what it does is a run. *)
Lemma wait_all_runs (picks : list nat) q :
  runs [] q (wait_all picks (length (in_flight q)) q).
Proof.
  remember (length (in_flight q)) as n eqn:Hn. revert picks q Hn.
  induction n as [|n IH]; intros picks q Hn.
  - simpl. apply runs_wait_all. apply length_zero_iff_nil. auto.
  - simpl. rewrite <- Hn.
    destruct (complete_in_range (hd 0%nat picks `mod` S n) q) as (q' & Hc & Hlen).
    { rewrite <- Hn. apply Nat.mod_upper_bound. discriminate. }
    rewrite Hc. rewrite <- Hn in Hlen.
    eapply runs_complete; [econstructor; exact Hc|]. apply IH. lia.
Qed.

Lemma submit_all_runs frames q q' :
  runs [] (foldl (fun q f => start_async f.1 f.2 q) q frames) q' ->
  runs frames q q'.
Proof.
  revert q. induction frames as [|[inputs userdata] frames IH]; intros q H; [exact H|].
  apply runs_submit, IH. exact H.
Qed.

Lemma infer_all_runs (picks : list nat) frames :
  runs frames create (infer_all picks frames).
Proof. apply submit_all_runs, wait_all_runs. Qed.

End QueueFacts.



(** ** [validate]: the score does not depend on earlier passes *)

Section ValidateFacts.
Import Bert.
Context {Model : Type}.
Variable compile_model : Model -> compiled.
Variable compute : metric -> result (gmap string scalar).

Lemma validate_batch_unfold (cm : compiled) (id : nat) (b : batch) (w : world) :
  validate_batch cm id b w =
    match batch_result cm b with
    | Ok (p, label) => add_batch id [p] [label] w
    | Raise e => (w, Raise e)
    end.
Proof.
  unfold validate_batch, batch_result, mbind, prog_bind, result_bind, pbind, lift.
  destruct (mapM _ (input_names cm)) as [inputs|e]; [|reflexivity]. cbn [rbind].
  destruct (Kits.list_index (call cm inputs) 0) as [row|e]; [|reflexivity]. cbn [rbind].
  destruct (argmax row) as [p|e]; [|reflexivity]. cbn [rbind].
  destruct (dict_get b "labels") as [label|e]; reflexivity.
Qed.

(** The loop touches the metric object [id] and nothing else. *)
Lemma for_each_accumulate (cm : compiled) (id : nat) (dataset : list batch)
    (w : world) (m : metric) :
  metrics w !! id = Some m ->
  for_each dataset (validate_batch cm id) w =
    ({| metrics := <[id := (accumulate cm m dataset).1]> (metrics w) |},
     (accumulate cm m dataset).2).
Proof.
  revert w m. induction dataset as [|b dataset IH]; intros w m Hm.
  - simpl. unfold pret. rewrite insert_id by exact Hm. destruct w; reflexivity.
  - cbn [for_each accumulate]. unfold pbind. rewrite validate_batch_unfold.
    destruct (batch_result cm b) as [[p label]|e].
    + unfold add_batch. rewrite Hm.
      rewrite (IH _ {| predictions := predictions m ++ [p];
                       references := references m ++ [label] |});
        [|apply lookup_insert_eq].
      cbn [metrics]. rewrite insert_insert_eq. reflexivity.
    + simpl. rewrite insert_id by exact Hm. destruct w; reflexivity.
Qed.

(** The value returned by [validate] is [validate_value], from any state
    of the process. *)
Lemma validate_result (model : Model) (dataset : list batch) (w : world) :
  (validate compile_model compute model dataset w).2
  = validate_value compile_model compute model dataset.
Proof.
  unfold validate, validate_value, mbind, prog_bind, pbind, load.
  rewrite (for_each_accumulate _ _ _ _ {| predictions := []; references := [] |})
    by apply lookup_insert_eq.
  destruct (accumulate (compile_model model) _ dataset) as [m [[]|e]]; [|reflexivity].
  cbn [fst snd metrics]. unfold metric_compute. cbn [metrics].
  rewrite lookup_insert_eq.
  destruct (compute m) as [ms|e]; [|reflexivity].
  unfold lift, mret, prog_ret, pret, mbind, result_bind. cbn [rbind fst snd].
  destruct (dict_get ms "f1"); reflexivity.
Qed.

(** A pass does change the process: its metric object stays behind. *)
Lemma validate_leaves_metric (model : Model) (dataset : list batch) (w : world) :
  fresh (dom (metrics w))
    ∈ dom (metrics (validate compile_model compute model dataset w).1).
Proof.
  unfold validate, mbind, prog_bind, pbind, load.
  rewrite (for_each_accumulate _ _ _ _ {| predictions := []; references := [] |})
    by apply lookup_insert_eq.
  destruct (accumulate (compile_model model) _ dataset) as [m [[]|e]].
  - cbn [fst snd metrics]. unfold metric_compute. cbn [metrics].
    rewrite lookup_insert_eq.
    destruct (compute m) as [ms|e]; [|cbn; set_solver].
    unfold lift. destruct (dict_get ms "f1"); cbn; set_solver.
  - cbn. set_solver.
Qed.

End ValidateFacts.

(** C4. For every compiled-model function, every metric computation, every
    model and every data set, the value that [validate] returns is the
    same from every state of the process; in particular a second pass,
    started in the state the first one leaves, returns the value (or
    raises the exception) of the first. *)
Theorem validate_deterministic {Model : Type}
    (compile_model : Model -> Bert.compiled)
    (compute : Bert.metric -> result (gmap string scalar))
    (model : Model) (dataset : list Bert.batch) :
  (forall w w' : Bert.world,
     (Bert.validate compile_model compute model dataset w).2
     = (Bert.validate compile_model compute model dataset w').2) /\
  (forall w : Bert.world,
     let first := Bert.validate compile_model compute model dataset w in
     let second := Bert.validate compile_model compute model dataset first.1 in
     second.2 = first.2).
Proof.
  split; [intros w w'|intros w first second; unfold second, first];
    rewrite !validate_result; reflexivity.
Qed.

(** ** The timing cell *)

Section TimingFacts.
Import Timing.
Context {Input : Type}.
Variable elapse : world Input -> event Input -> Qc.
Hypothesis call_takes_time : forall w c x, (0 < elapse w (Call c x))%Qc.

Lemma calls_loop (c : callee) (x : Input) (l : list nat) (w : world Input) :
  exists t,
    for_each l (fun _ => act elapse (Call c x)) w
    = ({| now := t; trace := trace w ++ replicate (length l) (Call c x) |}, Ok tt) /\
    (now w <= t)%Qc /\ (l <> [] -> (now w < t)%Qc).
Proof.
  revert w. induction l as [|i l IH]; intros w.
  - exists (now w). simpl. unfold pret. rewrite app_nil_r. destruct w.
    repeat split; [apply Qcle_refl|congruence].
  - cbn [for_each]. unfold pbind, act at 1.
    destruct (IH {| now := (now w + elapse w (Call c x))%Qc;
                    trace := trace w ++ [Call c x] |}) as (t & -> & Hle & _).
    exists t. cbn [now trace] in *. rewrite <- app_assoc.
    assert (Hlt : (now w < now w + elapse w (Call c x))%Qc).
    { rewrite <- (Qcplus_0_r (now w)) at 1.
      apply (proj1 (Qcplus_lt_mono_l _ _ _)), call_takes_time. }
    repeat split.
    + apply Qclt_le_weak. eapply Qclt_le_trans; eassumption.
    + intros _. eapply Qclt_le_trans; eassumption.
Qed.

(** A timed loop of [n > 0] calls: between the two clock readings lie the
    [n] calls on [x] and nothing else, the second reading is later than
    the first, and the line printed holds [t / n] and [n / t] for the
    difference [t] of the readings. *)
Lemma timed_loop_trace (c : callee) (x : Input) (n : nat) (w : world Input) :
  (0 < n)%nat ->
  exists t1,
    (now w < t1)%Qc /\
    timed_loop elapse c x n w
    = ({| now := t1; trace := trace w ++ loop_trace c x n (now w) t1 |}, Ok tt).
Proof.
  intros Hn. unfold timed_loop, mbind, prog_bind, pbind, perf_counter at 1.
  destruct (calls_loop c x (seq 0 n)
              {| now := now w;
                 trace := trace w ++ [PerfCounter (PyFloat (Fin (now w)))] |})
    as (t1 & -> & _ & Hlt).
  cbn [now trace] in *. rewrite length_seq.
  assert (Ht : (now w < t1)%Qc) by (apply Hlt; destruct n; [lia|discriminate]).
  exists t1. split; [exact Ht|].
  unfold perf_counter, lift, sub, arith, truediv. cbn [now trace is_numpy orb to_fval fadd fopp].
  assert (Hn0 : Qc_of_Z (Z.of_nat n) <> 0%Qc) by (apply Qc_of_Z_neq_0; lia).
  assert (Hd0 : (t1 + - now w)%Qc <> 0%Qc).
  { intros H0. apply (Qclt_not_eq _ _ Ht).
    transitivity (t1 + - now w + now w)%Qc; [rewrite H0|]; ring. }
  unfold is_zero. cbn [to_fval fdiv].
  rewrite (bool_decide_eq_false_2 _ Hn0), (bool_decide_eq_false_2 _ Hd0).
  destruct (decide (Qc_of_Z (Z.of_nat n) = 0%Qc)) as [|_]; [contradiction|].
  destruct (decide ((t1 + - now w)%Qc = 0%Qc)) as [|_]; [contradiction|].
  unfold print, loop_trace. cbn [now trace]. rewrite <- !app_assoc. reflexivity.
Qed.

End TimingFacts.

(** C7. When every inference call takes time and the number of iterations
    is positive, the two cells run without an exception and leave exactly
    this trace: the compilation of the FP32 model; the timed loop of the
    PyTorch model; then the timed loop of the compiled FP32 model, that is a
    first clock reading [t0], exactly [n] calls of the compiled FP32 model
    on the one prepared input and nothing else, the second clock reading
    [t1 > t0], and a printed throughput of [n / (t1 - t0)]; then the timed
    loop of the INT8 model. *)
Theorem fp32_timing_loop {Input : Type}
    (elapse : Timing.world Input -> Timing.event Input -> Qc)
    (vstack : Input -> Input) (n : nat) (inputs : Input) (w : Timing.world Input) :
  (0 < n)%nat ->
  (forall w c x, (0 < elapse w (Timing.Call c x))%Qc) ->
  exists w' a0 a1 t0 t1 b0 b1,
    Timing.notebook elapse vstack n inputs w = (w', Ok tt) /\
    Timing.trace w'
    = Timing.trace w
      ++ [Timing.ReadModel; Timing.Reshape; Timing.CompileModel Timing.CompiledFP32]
      ++ Timing.loop_trace Timing.TorchModel (vstack inputs) n a0 a1
      ++ ([Timing.PerfCounter (PyFloat (Fin t0))]
          ++ replicate n (Timing.Call Timing.CompiledFP32 inputs)
          ++ [Timing.PerfCounter (PyFloat (Fin t1));
              Timing.Print Timing.CompiledFP32
                (PyFloat (Fin ((t1 - t0) / Qc_of_Z (Z.of_nat n))%Qc))
                (PyFloat (Fin (Qc_of_Z (Z.of_nat n) / (t1 - t0))%Qc))])
      ++ Timing.loop_trace Timing.CompiledINT8 inputs n b0 b1 /\
    (t0 < t1)%Qc.
Proof.
  intros Hn Hcall.
  unfold Timing.notebook, Timing.timing_cell, Timing.compile_fp32_cell,
    mbind, prog_bind, pbind, Timing.act.
  cbn [Timing.now Timing.trace].
  match goal with
  | |- context [Timing.timed_loop elapse Timing.TorchModel (vstack inputs) n ?w1] =>
      destruct (timed_loop_trace elapse Hcall Timing.TorchModel (vstack inputs) n w1 Hn)
        as (ta & _ & ->)
  end.
  match goal with
  | |- context [Timing.timed_loop elapse Timing.CompiledFP32 inputs n ?w2] =>
      destruct (timed_loop_trace elapse Hcall Timing.CompiledFP32 inputs n w2 Hn)
        as (tb & Hlt & ->)
  end.
  match goal with
  | |- context [Timing.timed_loop elapse Timing.CompiledINT8 inputs n ?w3] =>
      destruct (timed_loop_trace elapse Hcall Timing.CompiledINT8 inputs n w3 Hn)
        as (tc & _ & ->)
  end.
  cbn [Timing.now Timing.trace] in *.
  eexists _, _, ta, ta, tb, tb, tc. split; [reflexivity|]. split; [|exact Hlt].
  cbn [Timing.trace]. unfold Timing.loop_trace. rewrite <- !app_assoc. reflexivity.
Qed.

Lemma fp32_timing_loop_witness :
  exists w' a0 a1 t0 t1 b0 b1,
    Timing.notebook
      (fun _ e => match e with
                  | Timing.Call _ _ => Qc_of_Z 1
                  | _ => Qc_of_Z 5
                  end)
      (fun x : nat => S x) Timing.num_samples 7%nat
      {| Timing.now := 0%Qc; Timing.trace := [] |} = (w', Ok tt) /\
    Timing.trace w'
    = [] ++ [Timing.ReadModel; Timing.Reshape; Timing.CompileModel Timing.CompiledFP32]
      ++ Timing.loop_trace Timing.TorchModel 8%nat Timing.num_samples a0 a1
      ++ ([Timing.PerfCounter (PyFloat (Fin t0))]
          ++ replicate Timing.num_samples (Timing.Call Timing.CompiledFP32 7%nat)
          ++ [Timing.PerfCounter (PyFloat (Fin t1));
              Timing.Print Timing.CompiledFP32
                (PyFloat (Fin ((t1 - t0) / Qc_of_Z (Z.of_nat Timing.num_samples))%Qc))
                (PyFloat (Fin (Qc_of_Z (Z.of_nat Timing.num_samples) / (t1 - t0))%Qc))])
      ++ Timing.loop_trace Timing.CompiledINT8 7%nat Timing.num_samples b0 b1 /\
    (t0 < t1)%Qc.
Proof.
  apply (fp32_timing_loop
           (fun _ e => match e with
                       | Timing.Call _ _ => Qc_of_Z 1
                       | _ => Qc_of_Z 5
                       end)
           (fun x : nat => S x) Timing.num_samples 7%nat
           {| Timing.now := 0%Qc; Timing.trace := [] |}).
  - unfold Timing.num_samples. lia.
  - intros w c x. vm_compute. reflexivity.
Defined.

(** * Further properties of the notebooks' code *)

(** ** [BinaryF1]: order, resets and batches *)

Section MetricAlgebra.
Import BinaryF1.

Lemma counts_updated_eq (s : t) (a p h : Z) :
  counts s a p h -> updated s ->
  s = {| name := name s; y_true := NpInt64 (wrap64 a); y_pred := NpInt64 (wrap64 p);
         correct_true := NpFloat (Fin (Qc_of_Z h)) |}.
Proof.
  intros (Ha & Hp & Hh) (Ut & Up & Uc). destruct s as [nm yt yp ct]. simpl in *.
  destruct Ha as [->|[-> _]]; [|discriminate].
  destruct Hp as [->|[-> _]]; [|discriminate].
  destruct Hh as [->|[-> _]]; [|discriminate].
  reflexivity.
Qed.

Lemma run_nonempty_updated (s : t) (calls : list (list Qc * list Z)) :
  calls <> [] -> updated (run s calls).
Proof.
  destruct calls as [|c calls]; [congruence|]. intros _.
  rewrite run_cons. apply run_updated, update_updated.
Qed.

(** The state after a non-empty run from a reset object, in closed form. *)
Lemma run_reset_closed (m : t) (calls : list (list Qc * list Z)) :
  calls <> [] ->
  run (reset m) calls
  = {| name := name m;
       y_true := NpInt64 (wrap64 (label_total calls));
       y_pred := NpInt64 (wrap64 (pred_total calls));
       correct_true := NpFloat (Fin (Qc_of_Z (hit_total calls))) |}.
Proof.
  intros Hne.
  pose proof (run_counts calls _ 0 0 0 (counts_reset m)) as Hc.
  rewrite !Z.add_0_l in Hc.
  rewrite (counts_updated_eq _ _ _ _ Hc (run_nonempty_updated _ _ Hne)).
  rewrite run_name. reflexivity.
Qed.

Lemma totals_Permutation (calls calls' : list (list Qc * list Z)) :
  calls ≡ₚ calls' ->
  label_total calls = label_total calls' /\
  pred_total calls = pred_total calls' /\
  hit_total calls = hit_total calls'.
Proof.
  intros Hp. unfold label_total, pred_total, hit_total.
  repeat split; apply Zsum_Permutation, fmap_Permutation, Hp.
Qed.

End MetricAlgebra.

Lemma exact_Permutation (calls calls' : list (list Qc * list Z)) :
  calls ≡ₚ calls' -> Masks.exact calls -> Masks.exact calls'.
Proof.
  intros Hp [Hall Hout]. split.
  - rewrite <- Hp. exact Hall.
  - unfold BinaryF1.output_total in *.
    rewrite <- (Zsum_Permutation _ _ (fmap_Permutation _ _ _ Hp)). exact Hout.
Qed.

(** X1. Within the exact range (outputs and masks of one shape, binary
    masks, outputs not within 2^-10 of 0, fewer than 2^24 elements in all)
    the state that a sequence of [update] calls leaves in a reset metric
    object does not depend on the order of the calls, and the reordered
    sequence is within the exact range too. *)
Theorem update_order_irrelevant (m : BinaryF1.t)
    (calls calls' : list (list Qc * list Z)) :
  Masks.exact calls ->
  calls ≡ₚ calls' ->
  Masks.exact calls' /\
  BinaryF1.run (BinaryF1.reset m) calls = BinaryF1.run (BinaryF1.reset m) calls'.
Proof.
  intros Hex Hp. split; [exact (exact_Permutation _ _ Hp Hex)|].
  destruct calls as [|c calls].
  - apply Permutation_nil_l in Hp. subst. reflexivity.
  - assert (Hne' : calls' <> []).
    { intros ->. apply Permutation_nil_r in Hp. discriminate. }
    rewrite !run_reset_closed by (assumption || discriminate).
    destruct (totals_Permutation _ _ Hp) as (-> & -> & ->). reflexivity.
Qed.

Lemma update_order_irrelevant_witness :
  BinaryF1.run (BinaryF1.reset BinaryF1.init)
    [([Qc_of_Z 2; Qc_of_Z (-1)], [1; 1]); ([Qc_of_Z 3], [0])]
  = BinaryF1.run (BinaryF1.reset BinaryF1.init)
    [([Qc_of_Z 3], [0]); ([Qc_of_Z 2; Qc_of_Z (-1)], [1; 1])].
Proof.
  apply update_order_irrelevant; [|apply perm_swap].
  unfold Masks.exact, Masks.exact_call, Masks.well_shaped, Masks.decisive,
    BinaryF1.binary.
  split; [apply (bool_decide_unpack _); vm_compute; exact I|reflexivity].
Defined.

(** X2. [reset] after any sequence of [update] calls on a new metric
    object gives back the state of a new object, so the score of the next
    evaluation pass is the score that pass has on its own. *)
Theorem reset_forgets (calls calls' : list (list Qc * list Z)) :
  BinaryF1.reset (BinaryF1.run BinaryF1.init calls) = BinaryF1.init /\
  BinaryF1.avg_value
    (BinaryF1.run (BinaryF1.reset (BinaryF1.run BinaryF1.init calls)) calls')
  = BinaryF1.avg_value (BinaryF1.run BinaryF1.init calls').
Proof.
  assert (H : BinaryF1.reset (BinaryF1.run BinaryF1.init calls) = BinaryF1.init).
  { unfold BinaryF1.reset. rewrite run_name. reflexivity. }
  split; [exact H|]. rewrite H. reflexivity.
Qed.

(** ** [BinaryF1]: the range of the score *)

Section ScoreRange.
Import BinaryF1.

Lemma hit_value (x y : Z) :
  as_byte (eq_byte x y * eq_byte x 1) = if (x =? y) && (x =? 1) then 1 else 0.
Proof. unfold eq_byte. destruct (x =? y), (x =? 1); reflexivity. Qed.

Lemma Zsum_binary_nonneg (l : list Z) : Forall binary l -> 0 <= Zsum l.
Proof.
  intros H. apply Zsum_nonneg. eapply Forall_impl; [exact H|]. intros z [-> | ->]; lia.
Qed.

(** A hit needs a predicted 1: the hits of a call are at most its
    predicted positives. *)
Lemma hits_le_pred (l p : list Z) :
  Forall binary p -> Zsum (hits l p) <= Zsum p.
Proof.
  unfold hits. intros Hp. revert l. induction Hp as [|y p Hy Hp IH]; intros [|x l];
    cbn [zip_with]; rewrite ?Zsum_cons; try (simpl; lia).
  - pose proof (Zsum_binary_nonneg p Hp). destruct Hy as [-> | ->]; simpl; lia.
  - specialize (IH l). rewrite hit_value.
    destruct (Z.eqb_spec x y), (Z.eqb_spec x 1); simpl; destruct Hy; lia.
Qed.

Lemma hits_le_label (l p : list Z) :
  Forall binary l -> Zsum (hits l p) <= Zsum l.
Proof.
  unfold hits. intros Hl. revert p. induction Hl as [|x l Hx Hl IH]; intros [|y p];
    cbn [zip_with]; rewrite ?Zsum_cons; try (simpl; lia).
  - pose proof (Zsum_binary_nonneg l Hl). destruct Hx as [-> | ->]; simpl; lia.
  - specialize (IH p). rewrite hit_value.
    destruct (Z.eqb_spec x y), (Z.eqb_spec x 1); simpl; destruct Hx; lia.
Qed.

Lemma preds_binary (output : list Qc) : Forall binary (binarize <$> output).
Proof.
  apply Forall_fmap, Forall_true. intros x. unfold binary. simpl. apply binarize_cases.
Qed.

(** What one call on a binary mask adds to the three counters. *)
Lemma call_bounds (c : list Qc * list Z) :
  Forall binary c.2 ->
  label_sum c = Zsum c.2 /\
  0 <= hit_sum c <= pred_sum c /\ hit_sum c <= label_sum c /\
  pred_sum c <= Z.of_nat (length c.1).
Proof.
  intros Hb. unfold label_sum, hit_sum, pred_sum.
  rewrite binary_mask_label by exact Hb.
  pose proof (hits_le_pred c.2 _ (preds_binary c.1)).
  pose proof (hits_le_label c.2 (binarize <$> c.1) Hb).
  pose proof (Zsum_unit_bound _ (hits_unit c.2 (binarize <$> c.1))).
  pose proof (pred_sum_bound c) as Hp. unfold pred_sum in Hp. lia.
Qed.

Lemma hit_total_exact (calls : list (list Qc * list Z)) :
  output_total calls <= int64_max -> hit_total calls = Zsum (hit_sum <$> calls).
Proof.
  unfold hit_total, output_total.
  induction calls as [|c calls IH]; [reflexivity|].
  rewrite !fmap_cons, !Zsum_cons. intros Hb.
  pose proof (hit_sum_bound c) as Hc.
  pose proof (output_total_nonneg calls) as Hn. unfold output_total in Hn.
  rewrite wrap64_small by (unfold int64_min, int64_max in *; lia).
  rewrite IH by lia. reflexivity.
Qed.

Lemma totals_bounds (calls : list (list Qc * list Z)) :
  Forall (fun c => Forall binary c.2) calls ->
  output_total calls <= int64_max ->
  0 <= hit_total calls <= pred_total calls /\
  hit_total calls <= label_total calls /\
  pred_total calls <= output_total calls.
Proof.
  intros Hb Hout. rewrite hit_total_exact by exact Hout. clear Hout.
  unfold pred_total, label_total, output_total.
  induction Hb as [|c calls Hc _ IH]; [simpl; lia|].
  rewrite !fmap_cons, !Zsum_cons.
  pose proof (call_bounds c Hc). lia.
Qed.

(** Without a hit the quotient is a NaN, whatever the two counters. *)
Lemma f1_no_hit (t p : Qc) :
  fdiv (fmul (fmul (Fin (Qc_of_Z 2)) (fdiv (Fin 0%Qc) (Fin t))) (fdiv (Fin 0%Qc) (Fin p)))
       (fadd (fdiv (Fin 0%Qc) (Fin t)) (fdiv (Fin 0%Qc) (Fin p)))
  = NaN.
Proof.
  simpl. destruct (decide (t = 0%Qc)), (decide (p = 0%Qc)); simpl; reflexivity.
Qed.

Lemma Qc_ratio_range (a b : Z) :
  0 < a -> a <= b ->
  (0 < Qc_of_Z a / Qc_of_Z b)%Qc /\ (Qc_of_Z a / Qc_of_Z b <= 1)%Qc.
Proof.
  intros Ha Hab.
  assert (Hb : (0 < Qc_of_Z b)%Qc)
    by (rewrite <- Z2Qc_inj_0; apply (proj1 (Z2Qc_inj_lt 0 b)); lia).
  assert (Ha' : (0 < Qc_of_Z a)%Qc)
    by (rewrite <- Z2Qc_inj_0; apply (proj1 (Z2Qc_inj_lt 0 a)); lia).
  pose proof (Qcinv_pos _ Hb) as Hinv. unfold Qcdiv. split.
  - apply Qcmult_pos_pos; assumption.
  - rewrite <- (Qcmult_inv_r (Qc_of_Z b)) by (apply Qclt_not_eq in Hb; congruence).
    apply Qcmult_le_mono_nonneg_r; [apply Qclt_le_weak, Hinv|].
    apply Qc_of_Z_le, Hab.
Qed.

(** The score after a non-empty run on binary masks, from the totals. *)
Lemma score_of_totals (calls : list (list Qc * list Z)) :
  calls <> [] ->
  Forall (fun c => Forall binary c.2) calls ->
  output_total calls <= int64_max -> label_total calls <= int64_max ->
  avg_value (run init calls)
  = Ok {[ "F1" :=
          NpFloat (if decide (hit_total calls = 0) then NaN
                   else Fin (Qc_of_Z (2 * hit_total calls)
                             / Qc_of_Z (label_total calls + pred_total calls))%Qc) ]}.
Proof.
  intros Hne Hb Hout Hlab.
  destruct (totals_bounds calls Hb Hout) as (Hh & Hhl & Hp).
  change init with (reset init). rewrite run_reset_closed by exact Hne.
  rewrite !wrap64_small by (unfold int64_min, int64_max in *; lia).
  rewrite avg_value_updated by (repeat split). cbn [name y_true y_pred correct_true to_fval].
  destruct (decide (hit_total calls = 0)) as [H0|H0].
  - rewrite H0, Z2Qc_inj_0, f1_no_hit. reflexivity.
  - rewrite f1_finite.
    + rewrite <- !Z2Qc_inj_add, <- Z2Qc_inj_mul. reflexivity.
    + apply Qc_of_Z_neq_0. lia.
    + apply Qc_of_Z_neq_0. lia.
    + apply Qc_of_Z_neq_0. lia.
    + rewrite <- Z2Qc_inj_add. apply Qc_of_Z_neq_0. lia.
Qed.

Lemma well_shaped_label_bound (calls : list (list Qc * list Z)) :
  Forall Masks.well_shaped calls -> label_total calls <= output_total calls.
Proof.
  unfold label_total, output_total. induction 1 as [|c calls [Hlen Hb] _ IH]; [simpl; lia|].
  rewrite !fmap_cons, !Zsum_cons.
  destruct (call_bounds c Hb) as (-> & _).
  pose proof (Zsum_unit_bound c.2 Hb). lia.
Qed.

Lemma exact_bounds (calls : list (list Qc * list Z)) :
  Masks.exact calls ->
  Forall Masks.well_shaped calls /\
  Forall (fun c => Forall binary c.2) calls /\
  output_total calls <= int64_max /\ label_total calls <= int64_max.
Proof.
  intros [Hall Hout].
  assert (Hws : Forall Masks.well_shaped calls).
  { eapply Forall_impl; [exact Hall|]. intros c [H _]. exact H. }
  pose proof (well_shaped_label_bound calls Hws) as Hlab.
  split; [exact Hws|]. split.
  - eapply Forall_impl; [exact Hws|]. intros c [_ H]. exact H.
  - unfold Masks.float32_exact, int64_max in *. lia.
Qed.

End ScoreRange.

(** X3. After at least one [update] within the exact range (outputs and
    masks of one shape, binary masks, outputs not within 2^-10 of 0, fewer
    than 2^24 elements in all) the score is NaN when no foreground pixel
    was predicted correctly, and otherwise a number greater than 0 and at
    most 1; it is never 0. *)
Theorem score_is_nan_or_in_unit_interval (calls : list (list Qc * list Z)) :
  calls <> [] ->
  Masks.exact calls ->
  (BinaryF1.hit_total calls = 0 /\
   BinaryF1.avg_value (BinaryF1.run BinaryF1.init calls)
   = Ok {[ "F1" := NpFloat NaN ]}) \/
  (0 < BinaryF1.hit_total calls /\
   exists v, BinaryF1.avg_value (BinaryF1.run BinaryF1.init calls)
             = Ok {[ "F1" := NpFloat (Fin v) ]} /\ (0 < v)%Qc /\ (v <= 1)%Qc).
Proof.
  intros Hne Hex. destruct (exact_bounds calls Hex) as (_ & Hb & Hout & Hlab).
  rewrite (score_of_totals calls Hne Hb Hout Hlab).
  destruct (totals_bounds calls Hb Hout) as (Hh & Hhl & Hp).
  destruct (decide (BinaryF1.hit_total calls = 0)) as [H0|H0]; [left; auto|].
  right. split; [lia|]. eexists. split; [reflexivity|].
  apply Qc_ratio_range; lia.
Qed.

Lemma score_is_nan_or_in_unit_interval_witness :
  exists v,
    BinaryF1.avg_value
      (BinaryF1.run BinaryF1.init
         [([Qc_of_Z 2; Qc_of_Z 1; Qc_of_Z (-1)], [1; 0; 1])])
    = Ok {[ "F1" := NpFloat (Fin v) ]} /\ (0 < v)%Qc /\ (v <= 1)%Qc.
Proof.
  destruct (score_is_nan_or_in_unit_interval
              [([Qc_of_Z 2; Qc_of_Z 1; Qc_of_Z (-1)], [1; 0; 1])])
    as [[H0 _]|[_ H]].
  - discriminate.
  - unfold Masks.exact, Masks.exact_call, Masks.well_shaped, Masks.decisive,
      BinaryF1.binary.
    split; [apply (bool_decide_unpack _); vm_compute; exact I|reflexivity].
  - vm_compute in H0. discriminate.
  - exact H.
Defined.

(** ** [BinaryF1]: the perfect score, and batches *)

Section PerfectScore.
Import BinaryF1 Masks.

Lemma score_inj (k : string) (a b : scalar) :
  Ok ({[ k := a ]} : gmap string scalar) = Ok {[ k := b ]} -> a = b.
Proof.
  intros H.
  apply (f_equal (fun r : result (gmap string scalar) =>
                    match r with Ok m => m !! k | Raise _ => None end)) in H.
  rewrite !lookup_singleton_eq in H. congruence.
Qed.

Lemma Qc_ratio_one (a b : Z) : b <> 0 -> (Qc_of_Z a / Qc_of_Z b)%Qc = 1%Qc -> a = b.
Proof.
  intros Hb H. apply Z2Qc_inj.
  rewrite <- (Qcmult_div_r (Qc_of_Z a) (Qc_of_Z b)) by (apply Qc_of_Z_neq_0, Hb).
  rewrite H. ring.
Qed.

Lemma Qc_ratio_same (a : Z) : a <> 0 -> (Qc_of_Z a / Qc_of_Z a)%Qc = 1%Qc.
Proof. intros Ha. unfold Qcdiv. apply Qcmult_inv_r, Qc_of_Z_neq_0, Ha. Qed.

(** Sums of terms that are pairwise ordered are equal only when the terms
    are. *)
Lemma Zsum_eq_pointwise {A : Type} (f g : A -> Z) (l : list A) :
  Forall (fun x => f x <= g x) l ->
  Zsum (f <$> l) = Zsum (g <$> l) ->
  Forall (fun x => f x = g x) l.
Proof.
  intros Hle. assert (Hsum : Zsum (f <$> l) <= Zsum (g <$> l)).
  { induction Hle; [simpl; lia|]. rewrite !fmap_cons, !Zsum_cons. lia. }
  clear Hsum. induction Hle as [|x l Hx Hle IH]; intros Heq; [constructor|].
  rewrite !fmap_cons, !Zsum_cons in Heq.
  assert (Hrest : Zsum (f <$> l) <= Zsum (g <$> l)).
  { clear -Hle. induction Hle; [simpl; lia|]. rewrite !fmap_cons, !Zsum_cons. lia. }
  constructor; [lia|]. apply IH. lia.
Qed.

(** Pixel by pixel: when every label 1 is hit and every predicted 1 is a
    hit, the prediction is the mask. *)
Lemma hits_all_agree (l p : list Z) :
  Forall binary l -> Forall binary p -> length l = length p ->
  Zsum (hits l p) = Zsum l -> Zsum (hits l p) = Zsum p -> p = l.
Proof.
  intros Hl. revert p. induction Hl as [|x l Hx Hl IH]; intros [|y p] Hp Hlen H1 H2;
    try discriminate; [reflexivity|].
  apply Forall_cons in Hp as [Hy Hp]. simpl in Hlen.
  pose proof (hits_le_label l p Hl) as Hle1.
  pose proof (hits_le_pred l p Hp) as Hle2.
  unfold hits in *. cbn [zip_with] in H1, H2. rewrite !Zsum_cons, hit_value in H1, H2.
  assert (x = y /\ Zsum (zip_with (fun l0 p0 => as_byte (eq_byte l0 p0 * eq_byte l0 1)) l p)
                   = Zsum l
          /\ Zsum (zip_with (fun l0 p0 => as_byte (eq_byte l0 p0 * eq_byte l0 1)) l p)
             = Zsum p) as (-> & E1 & E2).
  { destruct (Z.eqb_spec x y), (Z.eqb_spec x 1); simpl in H1, H2;
      destruct Hx, Hy; lia. }
  f_equal. apply IH; auto.
Qed.

Lemma well_shaped_agrees (c : list Qc * list Z) :
  well_shaped c -> hit_sum c = label_sum c -> hit_sum c = pred_sum c -> agrees c.
Proof.
  intros [Hlen Hb] H1 H2. unfold agrees, hit_sum, label_sum, pred_sum in *.
  rewrite binary_mask_label in H1, H2 by exact Hb.
  apply hits_all_agree; auto using preds_binary.
  rewrite length_fmap. symmetry. exact Hlen.
Qed.

Lemma agrees_sums (c : list Qc * list Z) :
  Forall binary c.2 -> agrees c ->
  hit_sum c = label_sum c /\ pred_sum c = label_sum c.
Proof.
  intros Hb Ha. unfold agrees in Ha. unfold hit_sum, label_sum, pred_sum.
  rewrite Ha, binary_mask_label, binary_mask_hits by exact Hb. auto.
Qed.

Lemma hits_app (l1 l2 p1 p2 : list Z) :
  length l1 = length p1 -> hits (l1 ++ l2) (p1 ++ p2) = hits l1 p1 ++ hits l2 p2.
Proof. intros H. unfold hits. apply zip_with_app, H. Qed.

End PerfectScore.

(** X4. Within the exact range (outputs and masks of one shape, binary
    masks, outputs not within 2^-10 of 0, fewer than 2^24 elements in all)
    the score of a run is exactly 1 if and only if some mask has a
    foreground pixel and every binarised prediction equals its mask pixel
    by pixel. *)
Theorem perfect_score_iff_agreement (calls : list (list Qc * list Z)) :
  calls <> [] ->
  Masks.exact calls ->
  BinaryF1.avg_value (BinaryF1.run BinaryF1.init calls)
  = Ok {[ "F1" := NpFloat (Fin 1%Qc) ]}
  <-> 0 < BinaryF1.label_total calls /\ Forall Masks.agrees calls.
Proof.
  intros Hne Hex. destruct (exact_bounds calls Hex) as (Hws & _ & Hout & _).
  assert (Hb : Forall (fun c => Forall BinaryF1.binary c.2) calls).
  { eapply Forall_impl; [exact Hws|]. intros c [_ H]. exact H. }
  pose proof (well_shaped_label_bound calls Hws) as Hlab.
  rewrite (score_of_totals calls Hne Hb Hout) by lia.
  destruct (totals_bounds calls Hb Hout) as (Hh & Hhl & Hp).
  rewrite hit_total_exact in * by exact Hout.
  split.
  - intros H. apply score_inj in H.
    destruct (decide (BinaryF1.Zsum (BinaryF1.hit_sum <$> calls) = 0)) as [H0|H0];
      [discriminate|].
    match type of H with
    | NpFloat (Fin ?x) = _ => assert (HQ : x = 1%Qc) by congruence
    end.
    apply Qc_ratio_one in HQ; [|lia].
    split; [lia|].
    assert (E1 : Forall (fun c => BinaryF1.hit_sum c = BinaryF1.label_sum c) calls).
    { apply Zsum_eq_pointwise.
      - eapply Forall_impl; [exact Hb|]. intros c Hc. pose proof (call_bounds c Hc). lia.
      - unfold BinaryF1.label_total in *. lia. }
    assert (E2 : Forall (fun c => BinaryF1.hit_sum c = BinaryF1.pred_sum c) calls).
    { apply Zsum_eq_pointwise.
      - eapply Forall_impl; [exact Hb|]. intros c Hc. pose proof (call_bounds c Hc). lia.
      - unfold BinaryF1.label_total, BinaryF1.pred_total in *. lia. }
    rewrite Forall_forall in *. intros c Hc.
    apply well_shaped_agrees; auto.
  - intros [Hpos Hag].
    assert (E : BinaryF1.Zsum (BinaryF1.hit_sum <$> calls) = BinaryF1.label_total calls
                /\ BinaryF1.pred_total calls = BinaryF1.label_total calls).
    { unfold BinaryF1.label_total, BinaryF1.pred_total. clear -Hb Hag.
      induction Hb as [|c calls Hc _ IH]; [auto|].
      apply Forall_cons in Hag as [Ha Hag]. destruct (IH Hag) as [E1 E2].
      destruct (agrees_sums c Hc Ha) as [F1 F2].
      rewrite !fmap_cons, !Zsum_cons. lia. }
    destruct E as [E1 E2]. rewrite E1, E2.
    destruct (decide (BinaryF1.label_total calls = 0)) as [H0|_]; [lia|].
    replace (2 * BinaryF1.label_total calls)
      with (BinaryF1.label_total calls + BinaryF1.label_total calls) by lia.
    rewrite Qc_ratio_same by lia. reflexivity.
Qed.

Lemma perfect_score_iff_agreement_witness :
  BinaryF1.avg_value
    (BinaryF1.run BinaryF1.init
       [([Qc_of_Z 2; Qc_of_Z (-1)], [1; 0]); ([Qc_of_Z 0], [0])])
  = Ok {[ "F1" := NpFloat (Fin 1%Qc) ]}.
Proof.
  apply (proj2 (perfect_score_iff_agreement
                  [([Qc_of_Z 2; Qc_of_Z (-1)], [1; 0]); ([Qc_of_Z 0], [0])]
                  ltac:(discriminate)
                  ltac:(unfold Masks.exact, Masks.exact_call, Masks.well_shaped,
                          Masks.decisive, BinaryF1.binary;
                        split; [apply (bool_decide_unpack _); vm_compute; exact I
                               |reflexivity]))).
  split.
  - vm_compute. reflexivity.
  - unfold Masks.agrees. apply (bool_decide_unpack _). vm_compute. exact I.
Defined.

(** X5. Within the exact range (outputs and masks of one shape, binary
    masks, outputs not within 2^-10 of 0, fewer than 2^24 elements in all),
    from a reset object and after any calls, two [update] calls give the
    state of the single call on the concatenated arrays, and the sequence
    with the single call is within the exact range too. *)
Theorem update_splits_batch (m : BinaryF1.t) (calls : list (list Qc * list Z))
    (o1 o2 : list Qc) (t1 t2 : list Z) :
  let s := BinaryF1.run (BinaryF1.reset m) calls in
  Masks.exact (calls ++ [(o1, t1); (o2, t2)]) ->
  Masks.exact (calls ++ [(o1 ++ o2, t1 ++ t2)]) /\
  BinaryF1.update (BinaryF1.update s o1 t1) o2 t2
  = BinaryF1.update s (o1 ++ o2) (t1 ++ t2).
Proof.
  intros s [Hall Hout].
  apply Forall_app in Hall as [Hcalls Htwo].
  apply Forall_cons in Htwo as [[[Hlen Hb1] Hd1] Htwo].
  apply Forall_cons in Htwo as [[[Hlen2 Hb2] Hd2] _].
  cbn [fst snd] in *.
  rewrite output_total_app in Hout.
  pose proof (output_total_nonneg calls) as Hnn.
  unfold BinaryF1.output_total at 2 in Hout.
  rewrite !fmap_cons, !Zsum_cons in Hout. cbn [fst fmap list_fmap BinaryF1.Zsum] in Hout.
  change (BinaryF1.Zsum []) with 0 in Hout.
  assert (Hbound : Z.of_nat (length o1 + length o2) <= int64_max)
    by (unfold Masks.float32_exact, int64_max in *; lia).
  split.
  { split.
    - apply Forall_app. split; [exact Hcalls|]. apply Forall_cons. split; [|constructor].
      split; [split|]; cbn [fst snd].
      + rewrite !length_app. congruence.
      + apply Forall_app. split; assumption.
      + apply Forall_app. split; assumption.
    - rewrite output_total_app. unfold BinaryF1.output_total at 2.
      rewrite !fmap_cons, !Zsum_cons. cbn [fst fmap list_fmap].
      change (BinaryF1.Zsum []) with 0. rewrite length_app. lia. }
  pose proof (run_counts calls _ 0 0 0 (counts_reset m)) as Hs. fold s in Hs.
  pose proof (update_counts _ _ _ _ (o2, t2)
                (update_counts _ _ _ _ (o1, t1) Hs)) as H12.
  pose proof (update_counts _ _ _ _ (o1 ++ o2, t1 ++ t2) Hs) as H.
  cbn [fst snd] in H12, H.
  apply counts_updated_eq in H12; [|apply update_updated].
  apply counts_updated_eq in H; [|apply update_updated].
  rewrite H12, H. cbn [BinaryF1.name BinaryF1.update].
  pose proof (hit_sum_bound (o1, t1)) as B1.
  pose proof (hit_sum_bound (o2, t2)) as B2.
  pose proof (hit_sum_bound (o1 ++ o2, t1 ++ t2)) as B12.
  cbn [fst snd] in B1, B2, B12. rewrite length_app in B12.
  assert (El : BinaryF1.label_sum (o1 ++ o2, t1 ++ t2)
               = BinaryF1.label_sum (o1, t1) + BinaryF1.label_sum (o2, t2)).
  { unfold BinaryF1.label_sum. cbn [snd]. rewrite fmap_app. apply Zsum_app. }
  assert (Ep : BinaryF1.pred_sum (o1 ++ o2, t1 ++ t2)
               = BinaryF1.pred_sum (o1, t1) + BinaryF1.pred_sum (o2, t2)).
  { unfold BinaryF1.pred_sum. cbn [fst]. rewrite fmap_app. apply Zsum_app. }
  assert (Eh : BinaryF1.hit_sum (o1 ++ o2, t1 ++ t2)
               = BinaryF1.hit_sum (o1, t1) + BinaryF1.hit_sum (o2, t2)).
  { unfold BinaryF1.hit_sum. cbn [fst snd]. rewrite !fmap_app, hits_app.
    - apply Zsum_app.
    - rewrite !length_fmap. symmetry. exact Hlen. }
  rewrite El, Ep, Eh.
  rewrite (wrap64_small (BinaryF1.hit_sum (o1, t1))),
          (wrap64_small (BinaryF1.hit_sum (o2, t2))),
          (wrap64_small (BinaryF1.hit_sum (o1, t1) + BinaryF1.hit_sum (o2, t2)))
    by (unfold int64_min, int64_max in *; lia).
  rewrite !Z.add_assoc. reflexivity.
Qed.

Lemma update_splits_batch_witness :
  BinaryF1.update (BinaryF1.update (BinaryF1.reset BinaryF1.init) [Qc_of_Z 2] [1])
                  [Qc_of_Z (-1); Qc_of_Z 4] [0; 1]
  = BinaryF1.update (BinaryF1.reset BinaryF1.init)
      ([Qc_of_Z 2] ++ [Qc_of_Z (-1); Qc_of_Z 4]) ([1] ++ [0; 1]).
Proof.
  apply (update_splits_batch BinaryF1.init [] [Qc_of_Z 2] [Qc_of_Z (-1); Qc_of_Z 4]
           [1] [0; 1]).
  unfold Masks.exact, Masks.exact_call, Masks.well_shaped, Masks.decisive,
    BinaryF1.binary.
  split; [apply (bool_decide_unpack _); vm_compute; exact I|reflexivity].
Defined.

(** ** [KitsDataLoader]: items, order and iteration *)

Section KitsItems.
Import Kits.

Lemma list_index_spec {A : Type} (l : list A) (index : Z) :
  let n := Z.of_nat (length l) in
  (- n <= index < n ->
   exists x, l !! Z.to_nat (index `mod` n) = Some x /\ list_index l index = Ok x) /\
  (index < - n \/ n <= index -> list_index l index = Raise IndexError).
Proof.
  intros n. unfold list_index. fold n. split.
  - intros Hr.
    assert (Hj : (if index <? 0 then index + n else index) = index `mod` n).
    { destruct (Z.ltb_spec index 0).
      - apply Z.mod_unique with (q := -1); lia.
      - symmetry. apply Z.mod_small. lia. }
    rewrite Hj.
    assert (Hm : 0 <= index `mod` n < n) by (apply Z.mod_pos_bound; lia).
    destruct (Z.leb_spec 0 (index `mod` n)); [|lia].
    destruct (Z.ltb_spec (index `mod` n) n); [|lia]. simpl.
    destruct (lookup_lt_is_Some_2 l (Z.to_nat (index `mod` n))) as [x Hx]; [lia|].
    rewrite Hx. eauto.
  - intros Hout. destruct (Z.ltb_spec index 0).
    + destruct (Z.leb_spec 0 (index + n)); [|reflexivity].
      destruct (Z.ltb_spec (index + n) n); [|reflexivity]. lia.
    + destruct (Z.leb_spec 0 index); [|reflexivity].
      destruct (Z.ltb_spec index n); [|reflexivity]. lia.
Qed.

Lemma path_compare_antisym (p q : path) :
  path_compare p q = CompOpp (path_compare q p).
Proof.
  revert q. induction p as [|a p IH]; intros [|b q]; simpl; try reflexivity.
  rewrite (String.compare_antisym b a).
  destruct (String.compare a b); simpl; auto.
Qed.

Lemma path_compare_refl (p : path) : path_compare p p = Eq.
Proof.
  induction p as [|a p IH]; simpl; [reflexivity|].
  assert (String.compare a a = Eq) as ->; [|exact IH].
  pose proof (String.compare_antisym a a) as H.
  destruct (String.compare a a); auto; discriminate.
Qed.

Lemma path_compare_eq (p q : path) : path_compare p q = Eq -> p = q.
Proof.
  revert q. induction p as [|a p IH]; intros [|b q]; simpl; try discriminate; auto.
  destruct (String.compare a b) eqn:Hab; try discriminate.
  apply String.compare_eq_iff in Hab as ->. intros H. f_equal. auto.
Qed.

Lemma string_compare_lt_trans (a b c : string) :
  String.compare a b = Lt -> String.compare b c = Lt -> String.compare a c = Lt.
Proof.
  intros Hab Hbc.
  assert (Hle : String.le a c).
  { transitivity b; unfold String.le, String.leb; [rewrite Hab|rewrite Hbc]; exact I. }
  unfold String.le, String.leb in Hle.
  destruct (String.compare a c) eqn:Hac; [|reflexivity|contradiction].
  apply String.compare_eq_iff in Hac as ->.
  rewrite String.compare_antisym, Hbc in Hab. discriminate.
Qed.

Lemma path_compare_lt_trans (p q r : path) :
  path_compare p q = Lt -> path_compare q r = Lt -> path_compare p r = Lt.
Proof.
  revert q r. induction p as [|a p IH]; intros [|b q] [|c r]; simpl;
    try discriminate; auto.
  destruct (String.compare a b) eqn:Hab; try discriminate.
  - apply String.compare_eq_iff in Hab as ->.
    destruct (String.compare b c); try discriminate; eauto.
  - intros _. destruct (String.compare b c) eqn:Hbc; try discriminate.
    + apply String.compare_eq_iff in Hbc as ->. rewrite Hab. reflexivity.
    + rewrite (string_compare_lt_trans a b c Hab Hbc). reflexivity.
Qed.

Lemma path_le_total : Total path_le.
Proof.
  intros p q. unfold path_le. rewrite (path_compare_antisym q p).
  destruct (path_compare p q); simpl; auto.
Qed.

Lemma path_le_trans : Transitive path_le.
Proof.
  intros p q r. unfold path_le.
  destruct (path_compare p q) eqn:Hpq; [| |congruence]; intros _.
  - apply path_compare_eq in Hpq as ->. auto.
  - destruct (path_compare q r) eqn:Hqr; [| |congruence]; intros _.
    + apply path_compare_eq in Hqr as ->. rewrite Hpq. discriminate.
    + rewrite (path_compare_lt_trans p q r Hpq Hqr). discriminate.
Qed.

Lemma StronglySorted_filter {A : Type} (R : relation A) (P : A -> Prop)
    `{!forall x, Decision (P x)} (l : list A) :
  StronglySorted R l -> StronglySorted R (filter P l).
Proof.
  induction 1 as [|x l Hs IH Hx]; [constructor|].
  rewrite filter_cons. destruct (decide (P x)); [|exact IH].
  constructor; [exact IH|]. apply Forall_forall. intros y Hy.
  apply list_elem_of_filter in Hy as [_ Hy]. rewrite Forall_forall in Hx. auto.
Qed.

End KitsItems.

Lemma getitem_cases (dl : Kits.t) (index : Z) :
  let n := Z.of_nat (Kits.len dl) in
  (- n <= index < n ->
   exists m, Kits.dataset dl !! Z.to_nat (index `mod` n) = Some m /\
     Kits.getitem dl index
     = Ok {| Kits.item_index := index; Kits.mask_path := m;
             Kits.case := Kits.case_name m; Kits.slice := Kits.stem m |}) /\
  (index < - n \/ n <= index -> Kits.getitem dl index = Raise IndexError).
Proof.
  intros n. unfold Kits.getitem.
  destruct (list_index_spec (Kits.dataset dl) index) as [Hin Hout]. split.
  - intros Hr. destruct (Hin Hr) as (m & Hm & ->). exists m. split; [exact Hm|reflexivity].
  - intros Hr. rewrite (Hout Hr). reflexivity.
Qed.

(** X8. [__getitem__(index)] succeeds exactly for [-len <= index < len]:
    it then returns the mask at position [index mod len] (a negative index
    counts from the end) with its case and slice, under the index as given;
    every other index raises [IndexError]. *)
Theorem getitem_bounds (dl : Kits.t) (index : Z) :
  let n := Z.of_nat (Kits.len dl) in
  (- n <= index < n ->
   exists m, Kits.dataset dl !! Z.to_nat (index `mod` n) = Some m /\
     Kits.getitem dl index
     = Ok {| Kits.item_index := index; Kits.mask_path := m;
             Kits.case := Kits.case_name m; Kits.slice := Kits.stem m |}) /\
  (index < - n \/ n <= index -> Kits.getitem dl index = Raise IndexError).
Proof. exact (getitem_cases dl index). Qed.

Lemma getitem_bounds_witness :
  let dl := {| Kits.basedir := "kits19_frames_1";
               Kits.dataset := [ ["case_00007"; "segmentation_frames"; "0002.png"];
                                 ["case_00007"; "segmentation_frames"; "0012.png"] ] |} in
  (exists m, Kits.getitem dl (-2)
             = Ok {| Kits.item_index := -2; Kits.mask_path := m;
                     Kits.case := Kits.case_name m; Kits.slice := Kits.stem m |}) /\
  Kits.getitem dl 2 = Raise IndexError.
Proof.
  intros dl. split.
  - destruct (proj1 (getitem_bounds dl (-2))) as (m & _ & Hm).
    + vm_compute. split; [discriminate|reflexivity].
    + exists m. exact Hm.
  - apply (proj2 (getitem_bounds dl 2)). right. vm_compute. discriminate.
Defined.

(** X9. A data source that the constructor returns holds exactly the
    entries of the directory tree that match the mask pattern and lie in a
    validation case, each once, in increasing order of their paths. *)
Theorem init_dataset_sorted_masks (fs : Kits.tree) (basedir : string) (dl : Kits.t) :
  Kits.init fs basedir = Ok dl ->
  (forall m, m ∈ Kits.dataset dl <->
             m ∈ fs /\ Kits.is_mask m = true /\ Kits.case_name m ∈ Kits.val_cases) /\
  NoDup (Kits.dataset dl) /\
  StronglySorted Kits.path_le (Kits.dataset dl).
Proof.
  intros Hinit.
  destruct (init_cases fs basedir) as [[_ H]|[_ H]]; rewrite H in Hinit; [discriminate|].
  injection Hinit as <-. cbn [Kits.dataset]. split; [|split].
  - intros m. rewrite list_elem_of_filter, sorted_Permutation. unfold Kits.glob.
    rewrite list_elem_of_filter, elem_of_elements, Is_true_true. tauto.
  - apply NoDup_filter. rewrite sorted_Permutation. unfold Kits.glob.
    apply NoDup_filter, NoDup_elements.
  - apply StronglySorted_filter.
    apply (@StronglySorted_merge_sort _ _ _ path_le_trans path_le_total).
Qed.

Lemma init_dataset_sorted_masks_witness :
  exists dl,
    Kits.init {[ ["case_00007"; "segmentation_frames"; "0012.png"];
                 ["case_00007"; "segmentation_frames"; "0002.png"];
                 ["case_00001"; "segmentation_frames"; "0002.png"] ]}
              "kits19_frames_1" = Ok dl /\
    NoDup (Kits.dataset dl) /\ StronglySorted Kits.path_le (Kits.dataset dl).
Proof.
  eexists. split; [vm_compute; reflexivity|].
  apply (init_dataset_sorted_masks
           {[ ["case_00007"; "segmentation_frames"; "0012.png"];
              ["case_00007"; "segmentation_frames"; "0002.png"];
              ["case_00001"; "segmentation_frames"; "0002.png"] ]}
           "kits19_frames_1").
  vm_compute. reflexivity.
Defined.

Section KitsStem.
Import Kits.

Lemma rev_app_app (s t u : string) :
  String.rev_app (s +:+ t) u = String.rev_app t (String.rev_app s u).
Proof. revert u. induction s as [|a s IH]; intros u; simpl; [reflexivity|apply IH]. Qed.

Lemma string_length_app (s t : string) :
  String.length (s +:+ t) = (String.length s + String.length t)%nat.
Proof. induction s as [|a s IH]; simpl; [reflexivity|]. rewrite IH. reflexivity. Qed.

Lemma substring_prefix (s t : string) : String.substring 0 (String.length s) (s +:+ t) = s.
Proof.
  induction s as [|a s IH]; simpl; [destruct t; reflexivity|]. rewrite IH. reflexivity.
Qed.

Lemma index_dot_reversed_png (r : string) :
  String.index 0 "." (String.rev_app ".png" r) = Some 3%nat.
Proof. destruct r; reflexivity. Qed.

Lemma iter_from_drop (dl : t) (k : nat) (fuel : nat) :
  (k <= len dl)%nat -> (len dl - k < fuel)%nat ->
  exists items,
    KitsIter.iter_from fuel dl (Z.of_nat k) = Some (Ok items) /\
    mask_path <$> items = drop k (dataset dl) /\
    item_index <$> items = Z.of_nat <$> seq k (len dl - k).
Proof.
  revert k. induction fuel as [|fuel IH]; intros k Hk Hfuel; [lia|].
  cbn [KitsIter.iter_from].
  destruct (decide (k = len dl)) as [->|Hne].
  - rewrite (proj2 (getitem_cases dl (Z.of_nat (len dl)))) by lia.
    exists []. rewrite Nat.sub_diag. unfold len. rewrite drop_all. auto.
  - destruct (proj1 (getitem_cases dl (Z.of_nat k))) as (m & Hm & ->); [lia|].
    rewrite Z.mod_small, Nat2Z.id in Hm by lia.
    destruct (IH (S k)) as (items & Hit & Hpaths & Hidx); [lia..|].
    replace (Z.of_nat k + 1) with (Z.of_nat (S k)) by lia. rewrite Hit.
    eexists. split; [reflexivity|]. rewrite !fmap_cons, Hpaths, Hidx. cbn.
    split.
    + symmetry. apply drop_S. exact Hm.
    + replace (len dl - k)%nat with (S (len dl - S k)) by lia. reflexivity.
Qed.

End KitsStem.

(** X10. For a mask file [name.png] with a non-empty [name], the slice
    reported in the metadata is [name]: the path's final component without
    its last suffix. *)
Theorem stem_of_png (dir : Kits.path) (name : string) :
  name <> "" -> Kits.stem (dir ++ [name +:+ ".png"]) = name.
Proof.
  intros Hne. unfold Kits.stem. rewrite last_snoc. cbn [default].
  unfold String.rev, Datatypes.id. rewrite rev_app_app, index_dot_reversed_png.
  rewrite string_length_app. cbn [String.length].
  replace (String.length name + 4 - 1 - 3)%nat with (String.length name) by lia.
  assert (0 < String.length name)%nat by (destruct name; [congruence|simpl; lia]).
  rewrite !bool_decide_eq_true_2 by lia. cbn [andb].
  apply substring_prefix.
Qed.

Lemma stem_of_png_witness :
  Kits.stem (["case_00117"; "segmentation_frames"] ++ ["0042" +:+ ".png"]) = "0042".
Proof. apply stem_of_png. discriminate. Defined.

(** X11. [for item in data_loader] stops: with fuel for more than [len]
    requests the iteration returns exactly [len] items, those of the
    indices 0 to [len - 1] in this order, whose masks are the data set in
    its sorted order; the [IndexError] of the request [len] ends it. *)
Theorem iteration_visits_every_item_once (dl : Kits.t) (fuel : nat) :
  (Kits.len dl < fuel)%nat ->
  exists items,
    KitsIter.iter fuel dl = Some (Ok items) /\
    length items = Kits.len dl /\
    Kits.mask_path <$> items = Kits.dataset dl /\
    Kits.item_index <$> items = Z.of_nat <$> seq 0 (Kits.len dl).
Proof.
  intros Hfuel. destruct (iter_from_drop dl 0 fuel) as (items & Hit & Hp & Hi); [lia..|].
  rewrite Nat.sub_0_r in Hi. exists items. repeat split; try assumption.
  apply (f_equal length) in Hp. rewrite length_fmap in Hp. exact Hp.
Qed.

Lemma iteration_visits_every_item_once_witness :
  exists items,
    KitsIter.iter 3
      {| Kits.basedir := "kits19_frames_1";
         Kits.dataset := [ ["case_00007"; "segmentation_frames"; "0002.png"];
                           ["case_00007"; "segmentation_frames"; "0012.png"] ] |}
    = Some (Ok items) /\ length items = 2%nat.
Proof.
  destruct (iteration_visits_every_item_once
              {| Kits.basedir := "kits19_frames_1";
                 Kits.dataset := [ ["case_00007"; "segmentation_frames"; "0002.png"];
                                   ["case_00007"; "segmentation_frames"; "0012.png"] ] |} 3)
    as (items & Hit & Hlen & _).
  - vm_compute. lia.
  - exists items. split; assumption.
Defined.

(** ** The frame buffer and the frame rate *)

Section FrameFacts.
Import LiveInference.
Context {Path Image : Type}.
Variable reader : Path -> Image.

Lemma fill_framebuf_from (image_paths : list Path) (fuel k : nat) (framebuf : list Image) :
  (k <= length image_paths - 1)%nat -> (length image_paths - 1 - k < fuel)%nat ->
  fill_framebuf reader fuel image_paths framebuf (Z.of_nat k)
  = Some (Ok (framebuf ++ (reader <$> drop k (take (length image_paths - 1) image_paths)))).
Proof.
  revert k framebuf. induction fuel as [|fuel IH]; intros k framebuf Hk Hfuel; [lia|].
  cbn [fill_framebuf].
  destruct (Z.ltb_spec (Z.of_nat k) (Z.of_nat (length image_paths) - 1)) as [Hlt|Hge].
  - destruct (list_index_in_range image_paths k) as (x & -> & Hx); [lia|].
    replace (Z.of_nat k + 1) with (Z.of_nat (S k)) by lia.
    rewrite IH by lia. f_equal. f_equal. rewrite <- app_assoc. f_equal.
    rewrite (drop_S _ x k); [reflexivity|].
    rewrite lookup_take_lt by lia. exact Hx.
  - rewrite drop_ge by (rewrite length_take; lia). rewrite app_nil_r. reflexivity.
Qed.

End FrameFacts.

(** X12. The loop that fills the frame buffer ends, and the buffer holds
    the images of all paths except the last one, in their order: the last
    image is never read, and a case with at most one image gives an empty
    buffer. *)
Theorem framebuf_drops_last_image {Path Image : Type} (reader : Path -> Image)
    (image_paths : list Path) (fuel : nat) :
  (length image_paths < fuel)%nat ->
  LiveInference.load_frames reader fuel image_paths
  = Some (Ok (reader <$> take (length image_paths - 1) image_paths)).
Proof.
  intros Hfuel. unfold LiveInference.load_frames.
  pose proof (fill_framebuf_from reader image_paths fuel 0 []) as H.
  cbn [Z.of_nat app drop] in H. apply H; lia.
Qed.

Lemma framebuf_drops_last_image_witness :
  LiveInference.load_frames (fun p : string => String.length p) 4 ["a"; "bb"; "ccc"]
  = Some (Ok [1%nat; 2%nat]).
Proof.
  apply (framebuf_drops_last_image (fun p : string => String.length p)
           ["a"; "bb"; "ccc"] 4).
  vm_compute. lia.
Defined.

Lemma report_cases (frames : nat) (a b : Qc) :
  (frames = 0%nat \/ a = b ->
   LiveInference.report frames (PyFloat (Fin a)) (PyFloat (Fin b))
   = Raise ZeroDivisionError) /\
  (frames <> 0%nat -> a <> b ->
   exists r, LiveInference.report frames (PyFloat (Fin a)) (PyFloat (Fin b)) = Ok r).
Proof.
  unfold LiveInference.report, sub, arith, truediv, is_zero, mbind, result_bind.
  cbn [is_numpy orb to_fval fadd fopp].
  destruct (decide ((b + - a)%Qc = 0%Qc)) as [Hd|Hd].
  - assert (a = b) as -> by (transitivity (b + - a + a)%Qc; [rewrite Hd|]; ring).
    split; [|congruence]. intros _.
    rewrite (bool_decide_eq_true_2 _ Hd). reflexivity.
  - assert (Hab : a <> b) by (intros ->; apply Hd; ring).
    rewrite (bool_decide_eq_false_2 _ Hd). cbn [rbind fdiv].
    destruct (decide ((b + - a)%Qc = 0%Qc)) as [|_]; [contradiction|].
    destruct (decide (frames = 0%nat)) as [->|Hn].
    + split; [|congruence]. intros _. cbn [to_fval]. reflexivity.
    + assert (Hq : Qc_of_Z (Z.of_nat frames) <> 0%Qc) by (apply Qc_of_Z_neq_0; lia).
      assert (Hfps : (Qc_of_Z (Z.of_nat frames) / (b + - a))%Qc <> 0%Qc).
      { unfold Qcdiv. intros H0. apply Qcmult_integral in H0 as [H0|H0]; [tauto|].
        pose proof (Qcmult_inv_r _ Hd) as Hinv. rewrite H0, Qcmult_0_r in Hinv.
        symmetry in Hinv. exact (Q_apart_0_1 Hinv). }
      split; [intros [?| ?]; congruence|]. intros _ _.
      cbn [to_fval]. rewrite (bool_decide_eq_false_2 _ Hfps). cbn [rbind fdiv].
      eexists. reflexivity.
Qed.

(** X13. With clock readings [a] and [b], the report of the live-inference
    cell raises [ZeroDivisionError] exactly when the frame buffer is empty
    or the two readings are equal; it raises nothing else, and in every
    other case it returns its three figures. *)
Theorem frame_rate_report (frames : nat) (a b : Qc) :
  (LiveInference.report frames (PyFloat (Fin a)) (PyFloat (Fin b))
   = Raise ZeroDivisionError <-> frames = 0%nat \/ a = b) /\
  (forall e, LiveInference.report frames (PyFloat (Fin a)) (PyFloat (Fin b)) = Raise e ->
             e = ZeroDivisionError) /\
  (frames <> 0%nat -> a <> b ->
   exists r, LiveInference.report frames (PyFloat (Fin a)) (PyFloat (Fin b)) = Ok r).
Proof.
  destruct (report_cases frames a b) as [Hraise Hok].
  destruct (decide (frames = 0%nat \/ a = b)) as [Hc|Hc].
  - specialize (Hraise Hc). split; [tauto|]. split; [|intros ? ?; tauto].
    intros e He. congruence.
  - destruct Hok as [r Hr]; [tauto|tauto|]. rewrite Hr.
    split; [split; [discriminate|contradiction]|]. split; [discriminate|eauto].
Qed.

Lemma frame_rate_report_witness :
  LiveInference.report 0 (PyFloat (Fin (Qc_of_Z 3))) (PyFloat (Fin (Qc_of_Z 5)))
  = Raise ZeroDivisionError /\
  exists r,
    LiveInference.report 4 (PyFloat (Fin (Qc_of_Z 3))) (PyFloat (Fin (Qc_of_Z 5))) = Ok r.
Proof.
  split.
  - apply (proj2 (proj1 (frame_rate_report 0 (Qc_of_Z 3) (Qc_of_Z 5)))). left. reflexivity.
  - apply (proj2 (proj2 (frame_rate_report 4 (Qc_of_Z 3) (Qc_of_Z 5)))).
    + discriminate.
    + intros H. apply Z2Qc_inj in H. discriminate.
Defined.

(** ** The composed image of the background-removal notebook *)

Section BackgroundFacts.
Import Background.

Lemma add_zeros (px b : pixel) :
  length px = length b -> Forall uint8 px ->
  zip_with (fun x y => wrap8 (x + y)) ((fun _ => 0) <$> b) px = px.
Proof.
  revert b. induction px as [|x px IH]; intros [|y b] Hlen Hpx; try discriminate;
    [reflexivity|].
  apply Forall_cons in Hpx as [Hx Hpx]. simpl in *. rewrite IH by (auto; lia).
  unfold wrap8, uint8 in *. rewrite Z.mod_small by lia. reflexivity.
Qed.

Lemma add_255s (px b : pixel) :
  length px = length b ->
  zip_with (fun x y => wrap8 (x + y)) b ((fun _ => 255) <$> px)
  = (fun x => wrap8 (x + 255)) <$> b.
Proof.
  revert b. induction px as [|x px IH]; intros [|y b] Hlen; try discriminate;
    [reflexivity|].
  simpl in *. rewrite IH by lia. reflexivity.
Qed.

End BackgroundFacts.

(** X14. In the composed image a pixel whose mask value is 1 is the pixel
    of the source image. A pixel whose mask value is 0 is the background
    pixel plus 255 modulo 256 in every channel, which is the channel minus
    1 and turns a channel of 0 into 255. Under any other mask value the
    two pixels are added modulo 256. *)
Theorem composed_pixel (image background_image : Background.picture)
    (resized_result : list Z) (i : nat) (m : Z) (px b : Background.pixel) :
  resized_result !! i = Some m ->
  image !! i = Some px -> background_image !! i = Some b ->
  length px = length b ->
  Forall Background.uint8 px -> Forall Background.uint8 b ->
  Background.new_image image background_image resized_result !! i
  = Some (if m =? 1 then px
          else if m =? 0
               then (fun x => if x =? 0 then 255 else x - 1) <$> b
               else zip_with (fun x y => Background.wrap8 (x + y)) b px).
Proof.
  intros Hm Hpx Hb Hlen Hu8 Hb8. unfold Background.picture, Background.pixel in *.
  unfold Background.new_image, Background.add_uint8, Background.bg_removed_result,
    Background.assign_where.
  rewrite !lookup_zip_with, Hm, Hb, Hpx. cbn [mbind option_bind].
  destruct (Z.eqb_spec m 1) as [->|H1]; [|destruct (Z.eqb_spec m 0) as [->|H0]].
  - cbn. f_equal. apply add_zeros; assumption.
  - cbn. f_equal. rewrite add_255s by exact Hlen.
    apply Forall_fmap_ext_1. eapply Forall_impl; [exact Hb8|].
    intros x Hx. unfold Background.wrap8, Background.uint8 in *. cbv beta.
    destruct (Z.eqb_spec x 0) as [->|Hx0]; [reflexivity|].
    symmetry. apply Z.mod_unique with (q := 1); lia.
  - reflexivity.
Qed.

Lemma composed_pixel_witness :
  Background.new_image [[10; 20; 30]; [40; 50; 60]] [[0; 7; 255]; [1; 2; 3]] [0; 1] !! 0%nat
  = Some [255; 6; 254] /\
  Background.new_image [[10; 20; 30]; [40; 50; 60]] [[0; 7; 255]; [1; 2; 3]] [0; 1] !! 1%nat
  = Some [40; 50; 60].
Proof.
  split.
  - apply (composed_pixel [[10; 20; 30]; [40; 50; 60]] [[0; 7; 255]; [1; 2; 3]] [0; 1]
             0 0 [10; 20; 30] [0; 7; 255]); try reflexivity;
      apply (bool_decide_unpack _); vm_compute; exact I.
  - apply (composed_pixel [[10; 20; 30]; [40; 50; 60]] [[0; 7; 255]; [1; 2; 3]] [0; 1]
             1 1 [40; 50; 60] [1; 2; 3]); try reflexivity;
      apply (bool_decide_unpack _); vm_compute; exact I.
Defined.

(** ** The BERT notebook: [argmax] and the validation pass *)

Section ArgmaxFacts.
Import Bert.

(** The scan keeps the first index of the greatest entry seen so far. *)
Lemma argmax_from_spec (l pre : list Qc) (best : Qc) (besti : nat) :
  pre !! besti = Some best ->
  Forall (fun y => (y <= best)%Qc) pre ->
  (forall j y, (j < besti)%nat -> pre !! j = Some y -> (y < best)%Qc) ->
  let r := argmax_from best besti (length pre) l in
  exists x, (pre ++ l) !! r = Some x /\
    Forall (fun y => (y <= x)%Qc) (pre ++ l) /\
    (forall j y, (j < r)%nat -> (pre ++ l) !! j = Some y -> (y < x)%Qc).
Proof.
  revert pre best besti. induction l as [|x l IH]; intros pre best besti Hb Hmax Hfirst.
  - simpl. rewrite app_nil_r. eauto.
  - cbn [argmax_from]. cbv zeta.
    replace (pre ++ x :: l) with ((pre ++ [x]) ++ l) by (rewrite <- app_assoc; reflexivity).
    replace (S (length pre)) with (length (pre ++ [x])) by (rewrite length_app; simpl; lia).
    destruct (decide (best < x)%Qc) as [Hlt|Hge].
    + apply IH.
      * rewrite lookup_app_r, Nat.sub_diag by lia. reflexivity.
      * apply Forall_app. split.
        -- eapply Forall_impl; [exact Hmax|]. intros y Hy. cbv beta in *.
           apply Qclt_le_weak. eapply Qcle_lt_trans; eassumption.
        -- repeat constructor. apply Qcle_refl.
      * intros j y Hj Hy. rewrite lookup_app_l in Hy by exact Hj.
        eapply Qcle_lt_trans; [|exact Hlt].
        rewrite Forall_forall in Hmax. apply Hmax.
        apply list_elem_of_lookup. eauto.
    + apply IH.
      * rewrite lookup_app_l by (apply lookup_lt_Some in Hb; exact Hb). exact Hb.
      * apply Forall_app. split; [exact Hmax|].
        repeat constructor. apply Qcnot_lt_le, Hge.
      * intros j y Hj Hy. apply (Hfirst j y Hj).
        rewrite lookup_app_l in Hy; [exact Hy|].
        apply lookup_lt_Some in Hb. lia.
Qed.

End ArgmaxFacts.

(** X15. [argmax] of an empty row raises [ValueError]. On a non-empty row
    it returns the position of a greatest entry, and the first such
    position: every entry is at most the one found and every earlier entry
    is smaller. *)
Theorem argmax_first_maximum (row : list Qc) :
  (row = [] -> Bert.argmax row = Raise ValueError) /\
  (row <> [] ->
   exists (i : nat) (x : Qc),
     Bert.argmax row = Ok (Z.of_nat i) /\ row !! i = Some x /\
     Forall (fun y => (y <= x)%Qc) row /\
     (forall j y, (j < i)%nat -> row !! j = Some y -> (y < x)%Qc)).
Proof.
  split; [intros ->; reflexivity|]. intros Hne.
  destruct row as [|x0 l]; [congruence|]. cbn [Bert.argmax].
  destruct (argmax_from_spec l [x0] x0 0) as (x & Hx & Hmax & Hfirst).
  - reflexivity.
  - repeat constructor. apply Qcle_refl.
  - intros j y Hj. lia.
  - exists (Bert.argmax_from x0 0 1 l), x. auto.
Qed.

Lemma argmax_first_maximum_witness :
  Bert.argmax [] = Raise ValueError /\
  exists (i : nat) (x : Qc),
    Bert.argmax [Qc_of_Z 1; Qc_of_Z 3; Qc_of_Z 3] = Ok (Z.of_nat i) /\
    [Qc_of_Z 1; Qc_of_Z 3; Qc_of_Z 3] !! i = Some x /\
    Forall (fun y => (y <= x)%Qc) [Qc_of_Z 1; Qc_of_Z 3; Qc_of_Z 3].
Proof.
  split.
  - apply (proj1 (argmax_first_maximum [])). reflexivity.
  - destruct (proj2 (argmax_first_maximum [Qc_of_Z 1; Qc_of_Z 3; Qc_of_Z 3]))
      as (i & x & H1 & H2 & H3 & _); [discriminate|].
    exists i, x. auto.
Defined.

Section ValidateMore.
Import Bert.
Context {Model : Type}.
Variable compile_model : Model -> compiled.
Variable compute : metric -> result (gmap string scalar).

(** The loop as a traversal: what it leaves in the metric object and
    whether it was left by an exception. *)
Lemma accumulate_mapM (cm : compiled) (dataset : list batch) (m : metric) :
  match mapM (batch_result cm) dataset with
  | Ok prs =>
      accumulate cm m dataset
      = ({| predictions := predictions m ++ prs.*1;
            references := references m ++ prs.*2 |}, Ok tt)
  | Raise e => (accumulate cm m dataset).2 = Raise e
  end.
Proof.
  revert m. induction dataset as [|b dataset IH]; intros m.
  - simpl. rewrite !app_nil_r. destruct m; reflexivity.
  - cbn [mapM accumulate]. unfold mbind at 1, result_bind at 1.
    destruct (batch_result cm b) as [[p label]|e]; cbn [rbind]; [|reflexivity].
    specialize (IH {| predictions := predictions m ++ [p];
                      references := references m ++ [label] |}).
    unfold mbind, result_bind.
    destruct (mapM (batch_result cm) dataset) as [prs|e]; cbn [rbind].
    + rewrite IH. cbn [predictions references]. unfold mret, result_ret.
      rewrite !fmap_cons, <- !app_assoc. reflexivity.
    + exact IH.
Qed.

Lemma validate_world (model : Model) (dataset : list batch) (w : world) :
  metrics (validate compile_model compute model dataset w).1
  = <[fresh (dom (metrics w)) :=
        (accumulate (compile_model model) {| predictions := []; references := [] |}
                    dataset).1]> (metrics w).
Proof.
  unfold validate, mbind, prog_bind, pbind, load.
  rewrite (for_each_accumulate _ _ _ _ {| predictions := []; references := [] |})
    by apply lookup_insert_eq.
  cbn [metrics]. rewrite insert_insert_eq.
  destruct (accumulate (compile_model model) _ dataset) as [m [[]|e]]; [|reflexivity].
  cbn [fst snd]. unfold metric_compute. cbn [metrics]. rewrite lookup_insert_eq.
  destruct (compute m) as [ms|e]; [|reflexivity].
  unfold lift. destruct (dict_get ms "f1"); reflexivity.
Qed.

End ValidateMore.

(** X16. [validate] scores every item of the data set exactly once and in
    order: its value is the ["f1"] entry that [metric.compute()] returns on
    the predictions and the labels of all the items, in the order of the
    data set; when an item fails, the exception of the first failing item
    is the outcome and nothing is computed. *)
Theorem validate_scores_every_item {Model : Type}
    (compile_model : Model -> Bert.compiled)
    (compute : Bert.metric -> result (gmap string scalar))
    (model : Model) (dataset : list Bert.batch) (w : Bert.world) :
  (Bert.validate compile_model compute model dataset w).2
  = (prs ← mapM (Bert.batch_result (compile_model model)) dataset;
     metrics ← compute {| Bert.predictions := prs.*1; Bert.references := prs.*2 |};
     Bert.dict_get metrics "f1").
Proof.
  rewrite validate_result. unfold Bert.validate_value.
  pose proof (accumulate_mapM (compile_model model) dataset
                {| Bert.predictions := []; Bert.references := [] |}) as H.
  destruct (mapM (Bert.batch_result (compile_model model)) dataset) as [prs|e].
  - rewrite H. reflexivity.
  - destruct (Bert.accumulate _ _ dataset) as [m r]. cbn [snd] in H. subst r. reflexivity.
Qed.

(** X17. A pass of [validate] changes no metric object that existed before
    it: it only adds its own, under an identity that was not in use. *)
Theorem validate_keeps_other_metrics {Model : Type}
    (compile_model : Model -> Bert.compiled)
    (compute : Bert.metric -> result (gmap string scalar))
    (model : Model) (dataset : list Bert.batch) (w : Bert.world) (id : nat) :
  id ∈ dom (Bert.metrics w) ->
  Bert.metrics (Bert.validate compile_model compute model dataset w).1 !! id
  = Bert.metrics w !! id.
Proof.
  intros Hid. rewrite validate_world. apply lookup_insert_ne.
  intros Heq. rewrite <- Heq in Hid. exact (is_fresh _ Hid).
Qed.

Lemma validate_keeps_other_metrics_witness :
  Bert.metrics
    (Bert.validate
       (fun _ : unit =>
          {| Bert.input_names := ["input_ids"];
             Bert.call := fun inputs => [[Qc_of_Z 0; Qc_of_Z 1]] |})
       (fun m => Ok {[ "f1" := PyInt 0 ]})
       tt
       [ {[ "input_ids" := Bert.VInts [1; 2]; "labels" := Bert.VInt 1 ]} ]
       {| Bert.metrics := {[ 0%nat := {| Bert.predictions := [1];
                                         Bert.references := [Bert.VInt 0] |} ]} |}).1
    !! 0%nat
  = Some {| Bert.predictions := [1]; Bert.references := [Bert.VInt 0] |}.
Proof.
  rewrite validate_keeps_other_metrics.
  - reflexivity.
  - cbn [Bert.metrics]. rewrite dom_singleton_L. apply elem_of_singleton. reflexivity.
Defined.

(** ** The timing cell without assumptions on the clock *)

Section TimingEdge.
Import Timing.
Context {Input : Type}.
Variable elapse : world Input -> event Input -> Qc.

Lemma calls_loop_any (c : callee) (x : Input) (l : list nat) (w : world Input) :
  exists t,
    for_each l (fun _ => act elapse (Call c x)) w
    = ({| now := t; trace := trace w ++ replicate (length l) (Call c x) |}, Ok tt) /\
    (l = [] -> t = now w).
Proof.
  revert w. induction l as [|i l IH]; intros w.
  - exists (now w). simpl. unfold pret. rewrite app_nil_r. destruct w. split; reflexivity.
  - cbn [for_each]. unfold pbind, act at 1.
    destruct (IH {| now := (now w + elapse w (Call c x))%Qc;
                    trace := trace w ++ [Call c x] |}) as (t & -> & _).
    exists t. cbn [now trace]. rewrite <- app_assoc. split; [reflexivity|discriminate].
Qed.

End TimingEdge.

(** X18. A timed loop always reads the clock, makes its [n] calls and reads
    the clock again. It then raises [ZeroDivisionError], printing nothing,
    exactly when [n] is 0 or the two readings are equal; otherwise it
    prints [t / n] and [n / t] for the difference [t] of the readings and
    ends normally. *)
Theorem timed_loop_zero_division {Input : Type}
    (elapse : Timing.world Input -> Timing.event Input -> Qc)
    (c : Timing.callee) (x : Input) (n : nat) (w : Timing.world Input) :
  exists t1 : Qc,
    if decide (n = 0%nat \/ t1 = Timing.now w)
    then Timing.timed_loop elapse c x n w
         = ({| Timing.now := t1;
               Timing.trace :=
                 Timing.trace w
                 ++ [Timing.PerfCounter (PyFloat (Fin (Timing.now w)))]
                 ++ replicate n (Timing.Call c x)
                 ++ [Timing.PerfCounter (PyFloat (Fin t1))] |},
            Raise ZeroDivisionError)
    else Timing.timed_loop elapse c x n w
         = ({| Timing.now := t1;
               Timing.trace :=
                 Timing.trace w ++ Timing.loop_trace c x n (Timing.now w) t1 |},
            Ok tt).
Proof.
  destruct (calls_loop_any elapse c x (seq 0 n)
              {| Timing.now := Timing.now w;
                 Timing.trace :=
                   Timing.trace w
                   ++ [Timing.PerfCounter (PyFloat (Fin (Timing.now w)))] |})
    as (t1 & Hcalls & _).
  cbn [Timing.now Timing.trace] in Hcalls. rewrite length_seq in Hcalls.
  exists t1.
  assert (Hd : (t1 + - Timing.now w)%Qc = 0%Qc <-> t1 = Timing.now w).
  { split; intros H.
    - transitivity (t1 + - Timing.now w + Timing.now w)%Qc; [ring|rewrite H; ring].
    - rewrite H. ring. }
  assert (Hrun : Timing.timed_loop elapse c x n w
    = (per_sentence ← lift (truediv (PyFloat (Fin (t1 + - Timing.now w)%Qc))
                                    (PyInt (Z.of_nat n)));
       sps ← lift (truediv (PyInt (Z.of_nat n))
                           (PyFloat (Fin (t1 + - Timing.now w)%Qc)));
       Timing.print c per_sentence sps)
      {| Timing.now := t1;
         Timing.trace :=
           Timing.trace w
           ++ [Timing.PerfCounter (PyFloat (Fin (Timing.now w)))]
           ++ replicate n (Timing.Call c x)
           ++ [Timing.PerfCounter (PyFloat (Fin t1))] |}).
  { unfold Timing.timed_loop, mbind, prog_bind, pbind, Timing.perf_counter at 1.
    rewrite Hcalls. unfold Timing.perf_counter. cbn [Timing.now Timing.trace].
    rewrite <- !app_assoc. reflexivity. }
  rewrite Hrun. clear Hrun Hcalls.
  unfold mbind, prog_bind, pbind, lift, truediv, is_zero.
  cbn [is_numpy orb to_fval fdiv].
  destruct (decide (n = 0%nat \/ t1 = Timing.now w)) as [[Hn|Ht]|Hno].
  - subst n. cbn [Z.of_nat]. rewrite (bool_decide_eq_true_2 _ Z2Qc_inj_0). reflexivity.
  - assert (H0 : (t1 + - Timing.now w)%Qc = 0%Qc) by (apply Hd, Ht).
    destruct (bool_decide (Qc_of_Z (Z.of_nat n) = 0%Qc)); [reflexivity|].
    rewrite (bool_decide_eq_true_2 _ H0). reflexivity.
  - assert (Hn0 : Qc_of_Z (Z.of_nat n) <> 0%Qc) by (apply Qc_of_Z_neq_0; lia).
    assert (Hd0 : (t1 + - Timing.now w)%Qc <> 0%Qc)
      by (intros H0; apply Hno; right; apply Hd, H0).
    rewrite (bool_decide_eq_false_2 _ Hn0), (bool_decide_eq_false_2 _ Hd0).
    destruct (decide (Qc_of_Z (Z.of_nat n) = 0%Qc)) as [|_]; [contradiction|].
    destruct (decide ((t1 + - Timing.now w)%Qc = 0%Qc)) as [|_]; [contradiction|].
    unfold Timing.print, Timing.loop_trace. cbn [Timing.now Timing.trace].
    rewrite <- !app_assoc. reflexivity.
Qed.

(** ** [rotate_and_flip] *)

Section RotateFacts.
Context {A : Type}.
Implicit Types (image : list (list A)) (row : list A).

Lemma rotate_and_flip_transpose image : rotate_and_flip image = Cv2.transpose image.
Proof.
  unfold rotate_and_flip, Cv2.rotate, Cv2.flip. cbn [Z.eqb Z.ltb Z.compare].
  generalize (Cv2.transpose image). intros l.
  induction l as [|row l IH]; [reflexivity|].
  rewrite !fmap_cons, reverse_involutive, IH. reflexivity.
Qed.

Lemma column_lookup image (i j : nat) :
  Forall (fun row => (i < length row)%nat) image ->
  Cv2.column image i !! j = image !! j ≫= (fun row => row !! i).
Proof.
  unfold Cv2.column. intros H. revert j. induction H as [|row image Hrow _ IH]; intros j.
  - reflexivity.
  - cbn [omap list_omap]. destruct (lookup_lt_is_Some_2 _ _ Hrow) as [x Hx].
    rewrite Hx. destruct j as [|j]; [simpl; rewrite Hx; reflexivity|]. apply IH.
Qed.

Lemma column_length image (i : nat) :
  Forall (fun row => (i < length row)%nat) image ->
  length (Cv2.column image i) = length image.
Proof.
  unfold Cv2.column. induction 1 as [|row image Hrow _ IH]; [reflexivity|].
  cbn [omap list_omap]. destruct (lookup_lt_is_Some_2 _ _ Hrow) as [x ->].
  simpl. rewrite <- IH. reflexivity.
Qed.

Lemma transpose_lookup image (i j : nat) :
  Cv2.rectangular image ->
  Cv2.transpose image !! i ≫= (fun row => row !! j)
  = image !! j ≫= (fun row => row !! i).
Proof.
  intros Hrect. unfold Cv2.transpose. rewrite list_lookup_fmap.
  destruct (decide (i < Cv2.width image)%nat) as [Hi|Hi].
  - rewrite lookup_seq_lt by exact Hi. cbn [fmap option_fmap option_map mbind option_bind plus].
    apply column_lookup. eapply Forall_impl; [exact Hrect|]. intros row Hrow. cbv beta in *. lia.
  - rewrite lookup_seq_ge by lia. cbn [fmap option_fmap option_map mbind option_bind].
    destruct (image !! j) as [row|] eqn:Hj; [|reflexivity].
    cbn [mbind option_bind]. symmetry. apply lookup_ge_None_2.
    unfold Cv2.rectangular in Hrect. rewrite Forall_forall in Hrect.
    rewrite (Hrect row) by (apply list_elem_of_lookup; eauto). lia.
Qed.

Lemma omap_lookup_seq row (pre : list A) :
  omap (fun i => (pre ++ row) !! i) (seq (length pre) (length row)) = row.
Proof.
  revert pre. induction row as [|x row IH]; intros pre; [reflexivity|].
  cbn [length seq omap list_omap].
  rewrite lookup_app_r, Nat.sub_diag by lia. cbn [lookup list_lookup].
  f_equal. specialize (IH (pre ++ [x])).
  rewrite <- app_assoc, length_app in IH. cbn [length app] in IH.
  rewrite Nat.add_1_r in IH. exact IH.
Qed.

Lemma transpose_involutive image :
  Cv2.rectangular image -> (0 < Cv2.width image)%nat ->
  Cv2.transpose (Cv2.transpose image) = image.
Proof.
  intros Hrect Hw.
  assert (Hcols : forall i, (i < Cv2.width image)%nat ->
                            Forall (fun row => (i < length row)%nat) image).
  { intros i Hi. eapply Forall_impl; [exact Hrect|]. intros row Hrow. cbv beta in *. lia. }
  assert (Hwidth : Cv2.width (Cv2.transpose image) = length image).
  { unfold Cv2.transpose. destruct (Cv2.width image) as [|w] eqn:E; [lia|].
    cbn [seq fmap list_fmap Cv2.width]. apply column_length, Hcols. lia. }
  apply list_eq. intros j. unfold Cv2.transpose at 1. rewrite list_lookup_fmap, Hwidth.
  destruct (image !! j) as [row|] eqn:Hj.
  - rewrite lookup_seq_lt by (apply lookup_lt_Some in Hj; exact Hj).
    cbn [fmap option_fmap option_map plus]. f_equal.
    unfold Cv2.column at 1, Cv2.transpose.
    assert (Hlen : length row = Cv2.width image).
    { unfold Cv2.rectangular in Hrect. rewrite Forall_forall in Hrect.
      apply Hrect, list_elem_of_lookup. eauto. }
    transitivity (omap (fun i => row !! i) (seq 0 (length row)));
      [|exact (omap_lookup_seq row [])].
    rewrite Hlen.
    apply list_omap_ext, Forall2_same_length_lookup_2; [apply length_fmap|].
    intros i col i' Hcol Hi'. apply lookup_seq in Hi' as [-> Hi]. cbn [plus] in *.
    rewrite list_lookup_fmap, lookup_seq_lt in Hcol by exact Hi.
    cbn [fmap option_fmap option_map plus] in Hcol. injection Hcol as <-.
    rewrite column_lookup by (apply Hcols, Hi). rewrite Hj. reflexivity.
  - apply lookup_ge_None_1 in Hj. rewrite lookup_seq_ge by lia. reflexivity.
Qed.

End RotateFacts.

(** X19. [rotate_and_flip] swaps the two axes of an image: the pixel in
    row [i], column [j] of the result is the pixel in row [j], column [i]
    of the image, and there is no other pixel in the result. *)
Theorem rotate_and_flip_swaps_axes {A : Type} (image : list (list A)) (i j : nat) :
  Cv2.rectangular image ->
  rotate_and_flip image !! i ≫= (fun row => row !! j)
  = image !! j ≫= (fun row => row !! i).
Proof.
  intros Hrect. rewrite rotate_and_flip_transpose. apply transpose_lookup, Hrect.
Qed.

Lemma rotate_and_flip_swaps_axes_witness :
  rotate_and_flip [[1; 2; 3]; [4; 5; 6]] !! 2%nat ≫= (fun row => row !! 1%nat)
  = Some 6.
Proof.
  rewrite (rotate_and_flip_swaps_axes [[1; 2; 3]; [4; 5; 6]] 2 1).
  - reflexivity.
  - repeat constructor.
Defined.

(** X20. Applying [rotate_and_flip] twice to an image with at least one
    pixel gives the image back. *)
Theorem rotate_and_flip_twice {A : Type} (image : list (list A)) :
  Cv2.rectangular image -> (0 < Cv2.width image)%nat ->
  rotate_and_flip (rotate_and_flip image) = image.
Proof.
  intros Hrect Hw. rewrite !rotate_and_flip_transpose.
  apply transpose_involutive; assumption.
Qed.

Lemma rotate_and_flip_twice_witness :
  rotate_and_flip (rotate_and_flip [[1; 2; 3]; [4; 5; 6]]) = [[1; 2; 3]; [4; 5; 6]].
Proof.
  apply (rotate_and_flip_twice [[1; 2; 3]; [4; 5; 6]]).
  - repeat constructor.
  - simpl. lia.
Defined.

(** ** [transform_fn] *)

Section TransformFacts.
Import Bert.
Context {Array : Type}.
Variable asarray_int64 : value -> result Array.

Lemma extract_cases (data_item : batch) (name : string) :
  match dict_get data_item name ≫= asarray_int64 with
  | Ok a => exists v, data_item !! name = Some v /\ asarray_int64 v = Ok a
  | Raise e =>
      data_item !! name = None /\ e = KeyError \/
      exists v, data_item !! name = Some v /\ asarray_int64 v = Raise e
  end.
Proof.
  unfold dict_get, mbind, result_bind, batch in *.
  destruct (data_item !! name) as [v|]; simpl.
  - destruct (asarray_int64 v) as [a|e] eqn:E; [eauto|right; eauto].
  - left. auto.
Qed.

Lemma transform_fold_raise (data_item : batch) (names : list string) (e : exn) :
  foldl (fun (acc : result (gmap string Array)) name =>
           inputs ← acc;
           v ← dict_get data_item name ≫= asarray_int64;
           Ok (<[name := v]> inputs))
        (Raise e) names = Raise e.
Proof. induction names as [|name names IH]; [reflexivity|exact IH]. Qed.

Lemma transform_fold (data_item : batch) (names : list string)
    (d0 : gmap string Array) :
  match foldl (fun (acc : result (gmap string Array)) name =>
                 inputs ← acc;
                 v ← dict_get data_item name ≫= asarray_int64;
                 Ok (<[name := v]> inputs))
              (Ok d0) names with
  | Ok inputs =>
      dom inputs = dom d0 ∪ list_to_set names /\
      (forall name, name ∈ names ->
         exists v a, data_item !! name = Some v /\ asarray_int64 v = Ok a /\
                     inputs !! name = Some a) /\
      (forall name, name ∉ names -> inputs !! name = d0 !! name)
  | Raise e =>
      exists name, name ∈ names /\
        (data_item !! name = None /\ e = KeyError \/
         exists v, data_item !! name = Some v /\ asarray_int64 v = Raise e)
  end.
Proof.
  revert d0. induction names as [|n names IH]; intros d0.
  - cbn [foldl]. split; [rewrite list_to_set_nil; apply eq_sym, (right_id_L ∅ (∪))|].
    split; [|reflexivity].
    intros name Hin. apply elem_of_nil in Hin. contradiction.
  - cbn [foldl]. pose proof (extract_cases data_item n) as Hn.
    match goal with
    | |- context [foldl ?f (Ok d0 ≫= ?k) names] => change (Ok d0 ≫= k) with (k d0)
    end.
    cbv beta.
    destruct (dict_get data_item n ≫= asarray_int64) as [a|e].
    + change (Ok a ≫= (fun v0 : Array => Ok (<[n := v0]> d0)))
        with (@Ok (gmap string Array) (<[n := a]> d0)).
      specialize (IH (<[n := a]> d0)).
      destruct (foldl _ (Ok (<[n := a]> d0)) names) as [inputs|e].
      * destruct IH as (Hdom & Hin & Hout). destruct Hn as (v & Hv & Ha).
        split.
        { rewrite Hdom, dom_insert_L, list_to_set_cons,
            (comm_L (∪) {[n]} (dom d0)), <- (assoc_L (∪)). reflexivity. }
        split.
        -- intros name Hname. destruct (decide (name ∈ names)) as [H|H]; [apply Hin, H|].
           apply elem_of_cons in Hname as [->|Hname]; [|contradiction].
           exists v, a. split; [exact Hv|]. split; [exact Ha|].
           rewrite (Hout n H). apply lookup_insert_eq.
        -- intros name Hname. apply not_elem_of_cons in Hname as [Hne Hname].
           rewrite (Hout name Hname). apply lookup_insert_ne. congruence.
      * destruct IH as (name & Hname & Hcase). exists name.
        split; [apply elem_of_cons; right; exact Hname|exact Hcase].
    + change (Raise e ≫= (fun v0 : Array => Ok (<[n := v0]> d0)))
        with (@Raise (gmap string Array) e).
      rewrite transform_fold_raise. exists n.
      split; [apply elem_of_cons; left; reflexivity|exact Hn].
Qed.

End TransformFacts.

(** X21. For numpy's conversion [np.asarray(., dtype=np.int64)], whatever
    it accepts: when [transform_fn] returns, its dictionary has exactly the
    input names of the model as keys, each holding the converted value that
    the data item has under that name. When it raises, some input name is
    missing from the item and the exception is [KeyError], or the
    conversion of the value under some input name raised the exception. *)
Theorem transform_fn_extracts_inputs {Array : Type}
    (asarray_int64 : Bert.value -> result Array)
    (INPUT_NAMES : list string) (data_item : Bert.batch) :
  match Calibration.transform_fn asarray_int64 INPUT_NAMES data_item with
  | Ok inputs =>
      dom inputs = list_to_set INPUT_NAMES /\
      forall name, name ∈ INPUT_NAMES ->
        exists v a, data_item !! name = Some v /\ asarray_int64 v = Ok a /\
                    inputs !! name = Some a
  | Raise e =>
      exists name, name ∈ INPUT_NAMES /\
        (data_item !! name = None /\ e = KeyError \/
         exists v, data_item !! name = Some v /\ asarray_int64 v = Raise e)
  end.
Proof.
  unfold Calibration.transform_fn.
  pose proof (transform_fold asarray_int64 data_item INPUT_NAMES ∅) as H.
  destruct (foldl _ (Ok ∅) INPUT_NAMES) as [inputs|e]; [|exact H].
  destruct H as (Hdom & Hin & _). split; [|exact Hin].
  rewrite Hdom, dom_empty_L. apply (left_id_L ∅ (∪)).
Qed.
